(** * rafttest: the cluster harness of dqlite/raft-test

    A shallow embedding of [cluster.go] (package [rafttest]) and the
    properties its specification states about it.

    The harness drives an external consensus library (hashicorp/raft).
    Objects the Go code reaches through pointers (in-memory transports,
    peer stores) live in finite maps from locations to object states;
    a location with no object plays the part of a nil reference.
    Code that can stop abnormally runs in a small state monad whose
    results distinguish a normal return, [t.Fatalf] and [panic]. *)

From stdpp Require Import gmap strings list fin_maps pretty.
From Stdlib Require Import ZArith Lia.

Open Scope Z_scope.

(** ** Outcomes and the harness monad *)

(** How a piece of harness code ends: it returns, it fails the test
    through [t.Fatalf] (which stops the calling goroutine), or it
    panics. *)
Inductive Outcome (A : Type) : Type :=
| Done (a : A)
| Fatal (msg : string)
| Panic (msg : string).
Arguments Done {A} a.
Arguments Fatal {A} msg.
Arguments Panic {A} msg.

(** A computation over a state [St].  The state reached is kept also
    when the computation stops abnormally: mutations made before a
    [t.Fatalf] or a [panic] stay in memory. *)
Definition M (St A : Type) : Type := St → Outcome A * St.

Definition ret {St A} (a : A) : M St A := λ s, (Done a, s).

Definition bind {St A B} (m : M St A) (k : A → M St B) : M St B :=
  λ s, match m s with
       | (Done a, s') => k a s'
       | (Fatal msg, s') => (Fatal msg, s')
       | (Panic msg, s') => (Panic msg, s')
       end.

Global Instance M_ret {St} : MRet (M St) := λ A, @ret St A.
Global Instance M_bind {St} : MBind (M St) := λ A B k m, bind m k.

Definition get {St} : M St St := λ s, (Done s, s).
Definition put {St} (s : St) : M St unit := λ _, (Done tt, s).
Definition modify {St} (f : St → St) : M St unit := λ s, (Done tt, f s).
Definition fatalf {St A} (msg : string) : M St A := λ s, (Fatal msg, s).
Definition panic {St A} (msg : string) : M St A := λ s, (Panic msg, s).

(** Run a computation on a component of a larger state. *)
Definition zoom {St St' A} (proj : St → St') (upd : St' → St → St)
    (m : M St' A) : M St A :=
  λ s, let '(o, s') := m (proj s) in (o, upd s' s).

(** [for i, x := range l { body i x }], the index counting from [i]. *)
Fixpoint for_range_from {St A} (i : nat) (l : list A)
    (body : nat → A → M St unit) : M St unit :=
  match l with
  | [] => ret tt
  | x :: l' => bind (body i x) (λ _, for_range_from (S i) l' body)
  end.

Definition for_range {St A} (l : list A) (body : nat → A → M St unit)
  : M St unit := for_range_from 0 l body.

(** The runtime error of a method call or field access through nil. *)
Definition nil_dereference : string :=
  "runtime error: invalid memory address or nil pointer dereference".

(** ** Go library functions used by the harness *)

(** [strconv.Itoa]. *)
Definition Itoa (i : Z) : string := pretty i.

(** [time.Duration] is a count of nanoseconds. *)
Definition Duration : Type := Z.
Definition Nanosecond : Duration := 1.
Definition Microsecond : Duration := 1000 * Nanosecond.
Definition Millisecond : Duration := 1000 * Microsecond.
Definition Second : Duration := 1000 * Millisecond.

(** Flags of package [log]: [1 << iota]. *)
Definition Ldate : Z := Z.shiftl 1 0.
Definition Ltime : Z := Z.shiftl 1 1.
Definition Lmicroseconds : Z := Z.shiftl 1 2.

(** ** Objects of the consensus library (hashicorp/raft) *)

(** A reference to an object in memory. *)
Abbreviation loc := nat.

(** [*log.Logger]: the prefix and the flags it was created with (the
    writer is the test's own log). *)
Record Logger : Type := mkLogger {
  log_prefix : string;
  log_flags : Z
}.

(** [raft.Config]. *)
Record Config : Type := mkConfig {
  HeartbeatTimeout : Duration;
  ElectionTimeout : Duration;
  CommitTimeout : Duration;
  MaxAppendEntries : Z;
  ShutdownOnRemove : bool;
  DisableBootstrapAfterElect : bool;
  TrailingLogs : Z;
  SnapshotInterval : Duration;
  SnapshotThreshold : Z;
  EnableSingleNode : bool;
  LeaderLeaseTimeout : Duration;
  StartAsLeader : bool;
  ConfigLogger : option Logger
}.

(** [raft.DefaultConfig()]: the library's production defaults. *)
Definition DefaultConfig : Config := {|
  HeartbeatTimeout := 1000 * Millisecond;
  ElectionTimeout := 1000 * Millisecond;
  CommitTimeout := 50 * Millisecond;
  MaxAppendEntries := 64;
  ShutdownOnRemove := true;
  DisableBootstrapAfterElect := true;
  TrailingLogs := 10240;
  SnapshotInterval := 120 * Second;
  SnapshotThreshold := 8192;
  EnableSingleNode := false;
  LeaderLeaseTimeout := 500 * Millisecond;
  StartAsLeader := false;
  ConfigLogger := None
|}.

(** [raft.LogStore] and [raft.StableStore] values: the library's
    in-memory store, or a cache in front of another store. *)
Inductive LogStore : Type :=
| InmemStore (id : loc)
| LogCache (capacity : Z) (store : LogStore).

(** [raft.SnapshotStore] values. *)
Inductive SnapshotStore : Type :=
| DiscardSnapshotStore
| FileSnapshotStore (base : string) (retain : Z).

(** [raft.Transport] values: a reference to an in-memory transport, or
    a network transport. *)
Inductive Transport : Type :=
| InmemTransportRef (l : loc)
| NetworkTransport (bindAddr : string).

(** [raft.InmemTransport]: its local address and the registry of the
    peers it can reach, from address to transport. *)
Record InmemTransport : Type := mkInmemTransport {
  localAddr : string;
  peers : gmap string loc
}.

(** [InmemTransport.LocalAddr]. *)
Definition LocalAddr (i : InmemTransport) : string := localAddr i.

(** [InmemTransport.Connect]: [i.peers[peer] = t]. *)
Definition Connect (peer : string) (t : loc) (i : InmemTransport)
  : InmemTransport :=
  {| localAddr := localAddr i; peers := <[peer := t]> (peers i) |}.

(** [InmemTransport.Close]: the transport is disconnected from all
    its peers, [i.peers] is a new, empty map. *)
Definition Close (i : InmemTransport) : InmemTransport :=
  {| localAddr := localAddr i; peers := ∅ |}.

(** [raft.PeerStore]: the interface of a peer directory.  [Peers]
    returns the stored addresses or an error; [SetPeers] leaves the
    store in a new state and may report an error. *)
Class PeerStore (S : Type) : Type := {
  Peers : S → list string + string;
  SetPeers : list string → S → S * option string
}.

(** [raft.StaticPeers]: a peer list held in memory.  The slice the
    store holds is modelled by its contents.  This is exact as long as
    no two stores hold slices that share a backing array, which is so
    for the stores [newNode] creates, whose slices are nil, and for
    what [populatePeerStores] makes of such stores. *)
Record StaticPeers : Type := mkStaticPeers {
  staticPeers : list string
}.

Global Instance StaticPeers_PeerStore : PeerStore StaticPeers := {|
  Peers s := inl (staticPeers s);
  SetPeers p _ := (mkStaticPeers p, None)
|}.

(** ** Wiring the network fabric and the peer directories *)

(** A method call on the object a reference points to; it panics on a
    reference to nothing. *)
Definition deref {O} (l : loc) : M (gmap loc O) O :=
  λ h, match h !! l with
       | Some o => (Done o, h)
       | None => (Panic nil_dereference, h)
       end.

(** [transport1.Connect(addr, transport2)] on the transport at [l1]. *)
Definition connect_call (l1 : loc) (addr : string) (l2 : loc)
  : M (gmap loc InmemTransport) unit :=
  t1 ← deref l1;
  modify (λ h : gmap loc InmemTransport, <[l1 := Connect addr l2 t1]> h).

(** The body of the inner loop of [connectLoobackTransports]. *)
Definition connect_pair (i : nat) (transport1 : loc) (j : nat)
    (transport2 : loc) : M (gmap loc InmemTransport) unit :=
  if decide (i ≠ j) then
    t2 ← deref transport2;
    connect_call transport1 (LocalAddr t2) transport2;;
    t1 ← deref transport1;
    connect_call transport2 (LocalAddr t1) transport1
  else ret tt.

(** [connectLoobackTransports]: connect all the given loopback
    transports to each other. *)
Definition connectLoobackTransports (transports : list loc)
  : M (gmap loc InmemTransport) unit :=
  for_range transports (λ i transport1,
    for_range transports (λ j transport2,
      connect_pair i transport1 j transport2)).

(** The local address of the transport a reference points to. *)
Definition addr_at (h : gmap loc InmemTransport) (l : loc) : option string :=
  LocalAddr <$> h !! l.

(** The transport at [l1] has the transport [l2] registered under the
    address [a]. *)
Definition registered (h : gmap loc InmemTransport) (l1 : loc) (a : string)
    (l2 : loc) : Prop :=
  ∃ t, h !! l1 = Some t ∧ peers t !! a = Some l2.

(** The transport at [l1] has the local address and the handle of the
    transport at [l2] registered. *)
Definition connected (h : gmap loc InmemTransport) (l1 l2 : loc) : Prop :=
  ∃ a, addr_at h l2 = Some a ∧ registered h l1 a l2.

(** No two of the given transports share a local address. *)
Definition distinct_addrs (h : gmap loc InmemTransport) (transports : list loc)
  : Prop :=
  ∀ l l' a, l ∈ transports → l' ∈ transports →
            addr_at h l = Some a → addr_at h l' = Some a → l = l'.

Section populate.
Context {S : Type} `{!PeerStore S}.

(** The body of the inner loop of [populatePeerStores]; [T] holds the
    transports, which the loop only reads. *)
Definition populate_pair (T : gmap loc InmemTransport) (i : nat)
    (store : loc) (j : nat) (transport : loc) : M (gmap loc S) unit :=
  if decide (i = j) then ret tt
  else
    s ← deref store;
    match Peers s with
    | inr err =>
        panic ("failed to get peers for node " +:+ Itoa (Z.of_nat i)
               +:+ ": " +:+ err)
    | inl addrs =>
        match T !! transport with
        | None => panic nil_dereference
        | Some t =>
            let addrs := addrs ++ [LocalAddr t] in
            let '(s', err) := SetPeers addrs s in
            modify (λ h : gmap loc S, <[store := s']> h);;
            match err with
            | Some err =>
                panic ("failed to set peers for node "
                       +:+ Itoa (Z.of_nat i) +:+ ": " +:+ err)
            | None => ret tt
            end
        end
    end.

(** [populatePeerStores]: populate each node's peer store with the
    addresses of the other nodes. *)
Definition populatePeerStores (stores transports : list loc)
    (T : gmap loc InmemTransport) : M (gmap loc S) unit :=
  if decide (length stores ≠ length transports) then
    panic "peer stores and tranports length mismatch"
  else
    for_range stores (λ i store,
      for_range transports (λ j transport,
        populate_pair T i store j transport)).
End populate.

(** A kind of peer store whose operations never report an error. *)
Definition never_errors (S : Type) `{!PeerStore S} : Prop :=
  (∀ s : S, ∃ addrs, Peers s = inl addrs)
  ∧ (∀ (addrs : list string) (s : S), (SetPeers addrs s).2 = None).

(** ** Nodes, clusters and knobs *)

(** The dependencies of one raft node. *)
Module node.
Record t : Type := mk {
  Config : Config;
  Logs : LogStore;
  Stable : LogStore;
  Snapshots : SnapshotStore;
  Peers : loc;
  Transport : Transport
}.
End node.
Abbreviation node := node.t.

(** The [cluster] object handed to the knobs: the options for node N. *)
Record cluster : Type := mkCluster {
  nodes : gmap Z node
}.

Section Harness.
(** The state machines under test and the memory private to the
    knobs are whatever the test supplies. *)
Context {FSM KnobMem : Type}.

(** The memory the harness and its knobs work on: the in-memory
    transports, the peer stores, the allocation counter, the cluster
    being built and the knobs' own memory. *)
Record State : Type := mkState {
  st_transports : gmap loc InmemTransport;
  st_stores : gmap loc StaticPeers;
  st_next : loc;
  st_cluster : cluster;
  st_knobs : KnobMem
}.

Definition set_transports (f : gmap loc InmemTransport → gmap loc InmemTransport)
    (s : State) : State :=
  mkState (f (st_transports s)) (st_stores s) (st_next s) (st_cluster s)
          (st_knobs s).
Definition set_stores (f : gmap loc StaticPeers → gmap loc StaticPeers)
    (s : State) : State :=
  mkState (st_transports s) (f (st_stores s)) (st_next s) (st_cluster s)
          (st_knobs s).
Definition set_next (f : loc → loc) (s : State) : State :=
  mkState (st_transports s) (st_stores s) (f (st_next s)) (st_cluster s)
          (st_knobs s).
Definition set_cluster (f : cluster → cluster) (s : State) : State :=
  mkState (st_transports s) (st_stores s) (st_next s) (f (st_cluster s))
          (st_knobs s).

(** [Knob]: tweaks the dependencies of the nodes.  [knob_id] is the
    identity of the knob object. *)
Record Knob : Type := mkKnob {
  knob_id : nat;
  init : M State unit;
  cleanup : M State unit
}.

(** [*raft.Raft]: a consensus engine instance, with the state machine
    and the dependencies it was created from. *)
Record Raft : Type := mkRaft {
  raft_id : loc;
  raft_fsm : FSM;
  raft_deps : node
}.

(** [raft.Future] values returned by [Shutdown]. *)
Inductive Future : Type :=
| shutdownFuture (r : Raft).

(** The calls the harness makes to the library and to the knobs. *)
Inductive Event : Type :=
| EvKnobInit (k : nat)
| EvKnobCleanup (k : nat)
| EvNewRaft (r : Raft)
| EvNewRaftFailed (fsm : FSM) (deps : node)
| EvShutdown (r : Raft)
| EvFutureError (r : Raft).

(** The memory together with the log of the calls made so far. *)
Record World : Type := mkWorld {
  w_state : State;
  w_trace : list Event
}.

(** What the harness does not decide: the address the library
    generates for a transport created without one, whether creating
    an engine fails, and whether an engine's shutdown fails. *)
Class Library : Type := {
  NewInmemAddr : loc → string;
  NewRaft_error : FSM → node → State → option string;
  Shutdown_error : Raft → option string
}.
Context `{Lib : !Library}.

Definition on_state {A} (m : M State A) : M World A :=
  zoom w_state (λ s w, mkWorld s (w_trace w)) m.

(** The world after some more calls. *)
Definition logged (w : World) (events : list Event) : World :=
  mkWorld (w_state w) (w_trace w ++ events).

Definition emit (e : Event) : M World unit :=
  modify (λ w, logged w [e]).

Definition alloc : M State loc :=
  s ← get;
  put (set_next S s);;
  ret (st_next s).

(** *** Creating the dependencies of a node *)

(** [raft.NewInmemTransport]: a new transport without peers, bound to
    the given address, or to a generated one when none is given. *)
Definition NewInmemTransport (addr : string) : M State (string * loc) :=
  l ← alloc;
  let addr := if decide (addr = "") then NewInmemAddr l else addr in
  modify (set_transports (λ h, <[l := mkInmemTransport addr ∅]> h));;
  ret (addr, l).

(** [raft.NewInmemStore]. *)
Definition NewInmemStore : M State LogStore :=
  l ← alloc;
  ret (InmemStore l).

(** [raft.NewDiscardSnapshotStore]. *)
Definition NewDiscardSnapshotStore : M State SnapshotStore :=
  ret DiscardSnapshotStore.

(** [&raft.StaticPeers{}]: a new, empty peer store. *)
Definition NewStaticPeers : M State loc :=
  l ← alloc;
  modify (set_stores (λ h, <[l := mkStaticPeers []]> h));;
  ret l.

Definition set_Logger (l : Logger) (c : Config) : Config :=
  mkConfig (HeartbeatTimeout c) (ElectionTimeout c) (CommitTimeout c)
    (MaxAppendEntries c) (ShutdownOnRemove c) (DisableBootstrapAfterElect c)
    (TrailingLogs c) (SnapshotInterval c) (SnapshotThreshold c)
    (EnableSingleNode c) (LeaderLeaseTimeout c) (StartAsLeader c) (Some l).
Definition set_HeartbeatTimeout (d : Duration) (c : Config) : Config :=
  mkConfig d (ElectionTimeout c) (CommitTimeout c)
    (MaxAppendEntries c) (ShutdownOnRemove c) (DisableBootstrapAfterElect c)
    (TrailingLogs c) (SnapshotInterval c) (SnapshotThreshold c)
    (EnableSingleNode c) (LeaderLeaseTimeout c) (StartAsLeader c)
    (ConfigLogger c).
Definition set_ElectionTimeout (d : Duration) (c : Config) : Config :=
  mkConfig (HeartbeatTimeout c) d (CommitTimeout c)
    (MaxAppendEntries c) (ShutdownOnRemove c) (DisableBootstrapAfterElect c)
    (TrailingLogs c) (SnapshotInterval c) (SnapshotThreshold c)
    (EnableSingleNode c) (LeaderLeaseTimeout c) (StartAsLeader c)
    (ConfigLogger c).
Definition set_LeaderLeaseTimeout (d : Duration) (c : Config) : Config :=
  mkConfig (HeartbeatTimeout c) (ElectionTimeout c) (CommitTimeout c)
    (MaxAppendEntries c) (ShutdownOnRemove c) (DisableBootstrapAfterElect c)
    (TrailingLogs c) (SnapshotInterval c) (SnapshotThreshold c)
    (EnableSingleNode c) d (StartAsLeader c) (ConfigLogger c).
Definition set_CommitTimeout (d : Duration) (c : Config) : Config :=
  mkConfig (HeartbeatTimeout c) (ElectionTimeout c) d
    (MaxAppendEntries c) (ShutdownOnRemove c) (DisableBootstrapAfterElect c)
    (TrailingLogs c) (SnapshotInterval c) (SnapshotThreshold c)
    (EnableSingleNode c) (LeaderLeaseTimeout c) (StartAsLeader c)
    (ConfigLogger c).

(** [newNode]: create default dependencies for a single raft node. *)
Definition newNode (addr : string) : M State node :=
  '(_, transport) ← NewInmemTransport addr;
  let config := DefaultConfig in
  let config :=
    set_Logger (mkLogger (addr +:+ ": ") (Z.lor Ltime Lmicroseconds)) config in
  (* Decrease timeouts, since everything happens in-memory by default. *)
  let config := set_HeartbeatTimeout (50 * Millisecond) config in
  let config := set_ElectionTimeout (50 * Millisecond) config in
  let config := set_LeaderLeaseTimeout (50 * Millisecond) config in
  let config := set_CommitTimeout (25 * Millisecond) config in
  logs ← NewInmemStore;
  stable ← NewInmemStore;
  snapshots ← NewDiscardSnapshotStore;
  peerStore ← NewStaticPeers;
  ret (node.mk config logs stable snapshots peerStore
         (InmemTransportRef transport)).

(** *** Creating and stopping engines *)

(** [raft.NewRaft]: an engine instance for the given state machine and
    dependencies, or an error. *)
Definition NewRaft (conf : Config) (fsm : FSM) (logs stable : LogStore)
    (snaps : SnapshotStore) (peerStore : loc) (trans : Transport)
  : M World (Raft + string) :=
  let deps := node.mk conf logs stable snaps peerStore trans in
  s ← on_state get;
  match NewRaft_error fsm deps s with
  | Some err => emit (EvNewRaftFailed fsm deps);; ret (inr err)
  | None =>
      l ← on_state alloc;
      let r := mkRaft l fsm deps in
      emit (EvNewRaft r);;
      ret (inl r)
  end.

(** [newRaft]: convenience around [raft.NewRaft] for creating a new
    instance using the given dependencies ([None] is a nil node). *)
Definition newRaft (fsm : FSM) (nd : option node) : M World (Raft + string) :=
  match nd with
  | None => panic nil_dereference
  | Some nd =>
      NewRaft (node.Config nd) fsm (node.Logs nd) (node.Stable nd)
        (node.Snapshots nd) (node.Peers nd) (node.Transport nd)
  end.

(** [r.Shutdown()]. *)
Definition Raft_Shutdown (r : Raft) : M World Future :=
  emit (EvShutdown r);;
  ret (shutdownFuture r).

(** Closing the transport an engine was created with: the library
    closes a transport that can be closed, as the in-memory one can;
    nothing of a network transport is held in this memory. *)
Definition close_transport (t : Transport) (s : State) : State :=
  match t with
  | InmemTransportRef l => set_transports (alter Close l) s
  | NetworkTransport _ => s
  end.

(** [future.Error()]: wait for the shutdown, close the transport of
    the engine and report the error of the shutdown. *)
Definition Future_Error (f : Future) : M World (option string) :=
  match f with
  | shutdownFuture r =>
      emit (EvFutureError r);;
      on_state (modify (close_transport (node.Transport (raft_deps r))));;
      ret (Shutdown_error r)
  end.

(** The first loop of [Shutdown]: [futures[i] = r.Shutdown()]. *)
Fixpoint shutdown_each (rafts : list Raft) : M World (list Future) :=
  match rafts with
  | [] => ret []
  | r :: rest =>
      f ← Raft_Shutdown r;
      fs ← shutdown_each rest;
      ret (f :: fs)
  end.

(** The body of the second loop of [Shutdown]. *)
Definition check_future (i : nat) (future : Future) : M World unit :=
  err ← Future_Error future;
  match err with
  | Some err =>
      fatalf ("failed to shutdown raft node " +:+ Itoa (Z.of_nat i)
              +:+ ": " +:+ err)
  | None => ret tt
  end.

(** [Shutdown]: shut down all the given raft nodes and fail the test
    if any of them errors out while doing so. *)
Definition Shutdown (rafts : list Raft) : M World unit :=
  futures ← shutdown_each rafts;
  for_range futures check_future.

(** [Other]: the index of a node which differs from the given one. *)
Fixpoint Other_from (j : nat) (rafts : list Raft) (i : Z) : Z :=
  match rafts with
  | [] => -1
  | _ :: rest =>
      if decide (i ≠ Z.of_nat j) then Z.of_nat j
      else Other_from (S j) rest i
  end.

Definition Other (rafts : list Raft) (i : Z) : Z := Other_from 0 rafts i.

(** *** Building a cluster *)

(** The first loop of [Cluster], from index [i] for [count] nodes: it
    creates the node, stores it in [cluster.nodes] and notes its peer
    store and its transport, which must be a loopback transport. *)
Fixpoint build_nodes (i count : nat) : M State (list loc * list loc) :=
  match count with
  | O => ret ([], [])
  | S count' =>
      nd ← newNode (Itoa (Z.of_nat i));
      modify (set_cluster (λ c, mkCluster (<[Z.of_nat i := nd]> (nodes c))));;
      transport ← match node.Transport nd with
                  | InmemTransportRef l => ret l
                  | NetworkTransport _ =>
                      panic "interface conversion: raft.Transport is not raft.LoopbackTransport"
                  end;
      '(stores, transports) ← build_nodes (S i) count';
      ret (node.Peers nd :: stores, transport :: transports)
  end.

(** [knob.init(cluster)] and [knob.cleanup(cluster)]. *)
Definition call_init (knob : Knob) : M World unit :=
  emit (EvKnobInit (knob_id knob));;
  on_state (init knob).

Definition call_cleanup (knob : Knob) : M World unit :=
  emit (EvKnobCleanup (knob_id knob));;
  on_state (cleanup knob).

(** The last loop of [Cluster], from index [i]: one engine for each
    state machine, created from the node the cluster holds at that
    index. *)
Fixpoint start_rafts (i : nat) (fsms : list FSM) : M World (list Raft) :=
  match fsms with
  | [] => ret []
  | fsm :: rest =>
      s ← on_state get;
      r ← newRaft fsm (nodes (st_cluster s) !! Z.of_nat i);
      match r with
      | inr err =>
          fatalf ("failed to start test raft node " +:+ Itoa (Z.of_nat i)
                  +:+ ": " +:+ err)
      | inl raft =>
          rafts ← start_rafts (S i) rest;
          ret (raft :: rafts)
      end
  end.

(** [Cluster]: create n raft nodes, one for each of the given FSMs.
    It returns the engines and the cleanup function. *)
Definition Cluster (fsms : list FSM) (knobs : list Knob)
  : M World (list Raft * M World unit) :=
  let n := length fsms in
  on_state (modify (set_cluster (λ _, mkCluster ∅)));;
  '(stores, transports) ← on_state (build_nodes 0 n);
  on_state (zoom st_transports (λ h, set_transports (λ _, h))
              (connectLoobackTransports transports));;
  on_state (λ s, zoom st_stores (λ h, set_stores (λ _, h))
                   (populatePeerStores stores transports (st_transports s)) s);;
  for_range knobs (λ _ knob, call_init knob);;
  rafts ← start_rafts 0 fsms;
  let cleanup : M World unit :=
    Shutdown rafts;;
    for_range knobs (λ _ knob, call_cleanup knob) in
  ret (rafts, cleanup).

(** *** Notions used to state the properties *)

(** The engines created, in order, by the calls of a log. *)
Definition started (events : list Event) : list Raft :=
  omap (λ e, match e with EvNewRaft r => Some r | _ => None end) events.

(** The attempts to create an engine recorded in a log. *)
Definition is_engine_event (e : Event) : bool :=
  match e with
  | EvNewRaft _ | EvNewRaftFailed _ _ => true
  | _ => false
  end.

(** A knob whose [init] returns and takes no node out of the cluster. *)
Definition init_keeps_nodes (k : Knob) : Prop :=
  ∀ s, ∃ s', init k s = (Done tt, s')
             ∧ ∀ i, is_Some (nodes (st_cluster s) !! i) →
                    is_Some (nodes (st_cluster s') !! i).

(** A knob whose [cleanup] returns. *)
Definition cleanup_returns (k : Knob) : Prop :=
  ∀ s, ∃ s', cleanup k s = (Done tt, s').

(** A knob whose [init] returns. *)
Definition init_returns (k : Knob) : Prop :=
  ∀ s, ∃ s', init k s = (Done tt, s').

(** A library on which creating an engine never fails. *)
Definition NewRaft_succeeds : Prop :=
  ∀ fsm nd s, NewRaft_error fsm nd s = None.

(** A library on which shutting an engine down never fails. *)
Definition Shutdown_succeeds : Prop :=
  ∀ r, Shutdown_error r = None.

(** The state after the [init] of each knob in turn, each run on the
    state the one before it left. *)
Fixpoint after_inits (knobs : list Knob) (s : State) : State :=
  match knobs with
  | [] => s
  | k :: rest => after_inits rest (init k s).2
  end.

(** The state after the [cleanup] of each knob in turn, each run on
    the state the one before it left. *)
Fixpoint after_cleanups (knobs : list Knob) (s : State) : State :=
  match knobs with
  | [] => s
  | k :: rest => after_cleanups rest (cleanup k s).2
  end.

(** The state once the futures of the given engines were checked, in
    order: the transports of these engines are closed. *)
Definition closed (rafts : list Raft) (s : State) : State :=
  foldl (λ s r, close_transport (node.Transport (raft_deps r)) s) s rafts.

(** The world in which the futures of the given engines were checked. *)
Definition closing (rafts : list Raft) (w : World) : World :=
  mkWorld (closed rafts (w_state w)) (w_trace w).

(** The wiring of a cluster of [n] nodes whose objects were allocated
    from the reference [base] on: node [i] has the transport at
    [base + 4 i], bound to the decimal form of [i], which has every
    other node's transport registered under that node's address, and
    its peer store lists the addresses of the other nodes in index
    order. *)
Definition wired (n base : nat) (s : State) : Prop :=
  ∀ i : nat, (i < n)%nat →
    ∃ nd t,
      nodes (st_cluster s) !! Z.of_nat i = Some nd
      ∧ node.Transport nd = InmemTransportRef (base + 4 * i)%nat
      ∧ st_transports s !! (base + 4 * i)%nat = Some t
      ∧ LocalAddr t = Itoa (Z.of_nat i)
      ∧ (∀ j : nat, (j < n)%nat → j ≠ i →
           peers t !! Itoa (Z.of_nat j) = Some (base + 4 * j)%nat)
      ∧ st_stores s !! node.Peers nd
        = Some (mkStaticPeers
                  (delete i ((λ i : nat, Itoa (Z.of_nat i)) <$> seq 0 n))).

(** *** The node-subset knob *)

(** The address of a node's transport. *)
Definition node_addr (s : State) (nd : node) : option string :=
  match node.Transport nd with
  | InmemTransportRef l => LocalAddr <$> st_transports s !! l
  | NetworkTransport a => Some a
  end.

(** The addresses of the nodes listed in [indexes], node [i] apart. *)
Definition selected_addrs (s : State) (indexes : list Z) (i : Z)
  : list string :=
  omap (λ j, if decide (j = i) then None
             else nodes (st_cluster s) !! j ≫= node_addr s) indexes.

Definition restrict_node (indexes : list Z) (s0 : State) (i : Z) (nd : node)
    (s : State) : State :=
  let keep := if bool_decide (i ∈ indexes)
              then selected_addrs s0 indexes i else [] in
  let s := set_stores (λ h, <[node.Peers nd := mkStaticPeers keep]> h) s in
  match node.Transport nd with
  | InmemTransportRef l =>
      set_transports
        (alter (λ t, mkInmemTransport (localAddr t)
                       (filter (λ kv, kv.1 ∈ keep) (peers t))) l) s
  | NetworkTransport _ => s
  end.

(** Modelled from the spec: the node-subset knob ([Servers] in the
    tests), whose source is not among the files verified here.  The
    spec has it restrict which nodes are connected and bootstrapped:
    a listed node keeps, as peers and as connections, the other
    listed nodes only; a node that is not listed keeps none.  The
    nodes that are not listed stay in [cluster.nodes]: the last loop of
    [Cluster] reads [cluster.nodes[i]] for every state machine, so that
    a knob taking a node out of the map, as [drop_node] below does,
    makes [Cluster] panic on the nil node, whereas the test of the knob
    goes on with the handles [Cluster] returned. *)
Definition Servers (id : nat) (indexes : list Z) : Knob := {|
  knob_id := id;
  init := modify (λ s, map_fold (restrict_node indexes s) s
                         (nodes (st_cluster s)));
  cleanup := ret tt
|}.
(** A knob that takes the node at index [i] out of the cluster. *)
Definition drop_node (id : nat) (i : Z) : Knob := {|
  knob_id := id;
  init := modify (set_cluster (λ c, mkCluster (delete i (nodes c))));
  cleanup := ret tt
|}.
End Harness.

(** ** A library on which nothing fails, and one whose shutdowns fail *)

Definition quiet_library {FSM KnobMem} : @Library FSM KnobMem := {|
  NewInmemAddr l := "inmem-" +:+ pretty l;
  NewRaft_error _ _ _ := None;
  Shutdown_error _ := None
|}.

(** Shutting down the engines with the given identities fails. *)
Definition faulty_library {FSM KnobMem} (bad : list loc)
  : @Library FSM KnobMem := {|
  NewInmemAddr l := "inmem-" +:+ pretty l;
  NewRaft_error _ _ _ := None;
  Shutdown_error r :=
    if bool_decide (raft_id r ∈ bad) then Some "raft is already shutdown"
    else None
|}.

(** Creating an engine for the state machine numbered [bad] fails. *)
Definition refusing_library {KnobMem} (bad : nat) : @Library nat KnobMem := {|
  NewInmemAddr l := "inmem-" +:+ pretty l;
  NewRaft_error fsm _ _ :=
    if decide (fsm = bad) then Some "log store is closed" else None;
  Shutdown_error _ := None
|}.

(** Shutting down the engine of the state machine numbered [bad]
    fails. *)
Definition failing_shutdown_library {KnobMem} (bad : nat)
  : @Library nat KnobMem := {|
  NewInmemAddr l := "inmem-" +:+ pretty l;
  NewRaft_error _ _ _ := None;
  Shutdown_error r :=
    if decide (raft_fsm r = bad) then Some "raft is already shutdown"
    else None
|}.

(** The state a test starts from. *)
Definition empty_state {KnobMem} (k : KnobMem) : @State KnobMem :=
  mkState ∅ ∅ 0%nat (mkCluster ∅) k.

Definition empty_world {FSM KnobMem} (k : KnobMem) : @World FSM KnobMem :=
  mkWorld (empty_state k) [].

(** ** Small worlds to run the harness on *)

(** Two transports bound to the addresses of nodes 0 and 1, and two
    empty peer stores. *)
Definition two_transports : gmap loc InmemTransport :=
  {[ 0%nat := mkInmemTransport "0" ∅; 4%nat := mkInmemTransport "1" ∅ ]}.

Definition two_stores : gmap loc StaticPeers :=
  {[ 3%nat := mkStaticPeers []; 7%nat := mkStaticPeers [] ]}.

(** Three state machines, told apart by a number, and the knob that
    restricts the cluster to node 0. *)
Definition three_fsms : list nat := [0; 1; 2]%nat.

Definition only_node_0 : @Knob unit := Servers 0 [0].

(** Three engines, the second of which fails to shut down on
    [faulty_library [1]]. *)
Definition three_rafts : list (@Raft nat) :=
  (λ i, mkRaft i i (node.mk DefaultConfig (InmemStore 0%nat) (InmemStore 0%nat)
                      DiscardSnapshotStore 0%nat (InmemTransportRef 0%nat)))
    <$> [0; 1; 2]%nat.

(** * Properties *)

(** ** Running computations *)

Section running.
Context {St : Type}.

Lemma mbind_unfold {A B} (m : M St A) (k : A → M St B) s :
  (m ≫= k) s = bind m k s.
Proof. reflexivity. Qed.

Lemma bind_Done {A B} (m : M St A) (k : A → M St B) s a s' :
  m s = (Done a, s') → bind m k s = k a s'.
Proof. intros E. unfold bind. by rewrite E. Qed.

Lemma bind_Fatal {A B} (m : M St A) (k : A → M St B) s msg s' :
  m s = (Fatal msg, s') → bind m k s = (Fatal msg, s').
Proof. intros E. unfold bind. by rewrite E. Qed.

Lemma bind_Panic {A B} (m : M St A) (k : A → M St B) s msg s' :
  m s = (Panic msg, s') → bind m k s = (Panic msg, s').
Proof. intros E. unfold bind. by rewrite E. Qed.

(** A loop whose body always returns and keeps an invariant returns,
    and the invariant holds of the state it leaves. *)
Lemma for_range_from_inv {A} (I : nat → St → Prop) (body : nat → A → M St unit)
    (l : list A) (i : nat) (s : St) :
  I i s →
  (∀ k x s0, l !! k = Some x → I (i + k)%nat s0 →
     ∃ s1, body (i + k)%nat x s0 = (Done tt, s1) ∧ I (S (i + k)) s1) →
  ∃ s', for_range_from i l body s = (Done tt, s') ∧ I (i + length l)%nat s'.
Proof.
  revert i s. induction l as [|x l IH]; intros i s Hi Hbody; simpl.
  - exists s. split; [done|]. by rewrite Nat.add_0_r.
  - destruct (Hbody 0%nat x s) as (s1 & E1 & I1); [done| by rewrite Nat.add_0_r |].
    rewrite Nat.add_0_r in E1, I1.
    destruct (IH (S i) s1 I1) as (s' & E' & I').
    { intros k y s0 Hk Hs0.
      replace (S i + k)%nat with (i + S k)%nat in * by lia.
      by apply Hbody. }
    exists s'. split.
    + by rewrite (bind_Done _ _ _ _ _ E1).
    + by replace (i + S (length l))%nat with (S i + length l)%nat by lia.
Qed.

(** A loop whose body leaves the state as it is does so too. *)
Lemma for_range_from_id {A} (body : nat → A → M St unit) (l : list A)
    (i : nat) (s : St) :
  (∀ k x, l !! k = Some x → body (i + k)%nat x s = (Done tt, s)) →
  for_range_from i l body s = (Done tt, s).
Proof.
  intros Hbody.
  destruct (for_range_from_inv (λ _ s0, s0 = s) body l i s) as (s' & E & ->);
    [done| |done].
  intros k x s0 Hk ->. exists s. split; [by apply Hbody|done].
Qed.
End running.

(** ** [Other] *)

Section other.
Context {FSM : Type}.
Implicit Types rafts : list (@Raft FSM).

Lemma Other_from_closed_form rafts (j : nat) (i : Z) :
  Other_from j rafts i =
    match rafts with
    | [] => -1
    | [_] => if decide (i ≠ Z.of_nat j) then Z.of_nat j else -1
    | _ :: _ :: _ =>
        if decide (i ≠ Z.of_nat j) then Z.of_nat j else Z.of_nat j + 1
    end.
Proof.
  destruct rafts as [|r [|r' rest]]; simpl; [done| |].
  - by destruct (decide (i ≠ Z.of_nat j)).
  - destruct (decide (i ≠ Z.of_nat j)) as [|Heq]; [done|].
    destruct (decide (i ≠ Z.of_nat (S j))); lia.
Qed.

(** C7. [Other] returns the first index, in ascending order, that
    differs from the excluded one: 0 when the slice is not empty and
    the excluded index is not 0, and 1 when index 0 is excluded and
    there are at least two nodes.  It returns -1 exactly when no index
    of the slice differs from the excluded one.  The result is a
    function of the number of nodes and of the excluded index alone,
    so that two calls with the same arguments agree. *)
Theorem Other_first_other_index rafts (i : Z) :
  Other rafts i =
    (if decide (rafts ≠ [] ∧ i ≠ 0) then 0
     else if decide (i = 0 ∧ (2 ≤ length rafts)%nat) then 1
     else -1)
  ∧ (Other rafts i = -1 ↔ ∀ j : nat, (j < length rafts)%nat → Z.of_nat j = i)
  ∧ (Other rafts i ≠ -1 →
     0 ≤ Other rafts i < Z.of_nat (length rafts)
     ∧ Other rafts i ≠ i
     ∧ ∀ j : nat, Z.of_nat j < Other rafts i → Z.of_nat j = i)
  ∧ (∀ rafts', length rafts' = length rafts → Other rafts' i = Other rafts i).
Proof.
  unfold Other. split_and!.
  - rewrite Other_from_closed_form.
    destruct rafts as [|r [|r' rest]]; simpl;
      repeat case_decide; try done; try lia; naive_solver lia.
  - rewrite Other_from_closed_form.
    destruct rafts as [|r [|r' rest]]; simpl.
    + split; [intros _ j; lia|done].
    + case_decide; split; try lia.
      all: try (intros H0; specialize (H0 0%nat); lia).
      all: try (intros _ j Hj; lia).
    + case_decide; split; try lia.
      all: try (intros H0; specialize (H0 0%nat); lia).
      all: intros H0; specialize (H0 1%nat); lia.
  - rewrite Other_from_closed_form.
    destruct rafts as [|r [|r' rest]]; simpl; [done| |].
    + case_decide; [|done]. intros _. split_and!; lia.
    + case_decide; intros _; split_and!; lia.
  - intros rafts' Hlen. rewrite !Other_from_closed_form.
    destruct rafts as [|r [|r' rest]], rafts' as [|q [|q' rest']];
      simpl in *; done.
Qed.
End other.

(** The theorem at a single node, at two nodes and at no node. *)
Lemma Other_first_other_index_witness :
  Other [mkRaft 7%nat tt (node.mk DefaultConfig (InmemStore 0%nat) (InmemStore 1%nat)
                            DiscardSnapshotStore 2%nat (InmemTransportRef 3%nat))] 0
    = -1.
Proof.
  apply (Other_first_other_index (FSM:=unit)). intros j Hj. simpl in Hj. lia.
Defined.

(** ** [newNode] *)

Section new_node.
Context {FSM KnobMem : Type} `{Lib : !@Library FSM KnobMem}.
Implicit Types s : @State KnobMem.

(** What [newNode] returns and the memory it leaves. *)
Lemma newNode_run (addr : string) s :
  let l := st_next s in
  let bound := if decide (addr = "") then NewInmemAddr l else addr in
  newNode addr s =
    (Done (node.mk
             (mkConfig (50 * Millisecond) (50 * Millisecond) (25 * Millisecond)
                64 true true 10240 (120 * Second) 8192 false
                (50 * Millisecond) false
                (Some (mkLogger (addr +:+ ": ") 6)))
             (InmemStore (S l)) (InmemStore (S (S l))) DiscardSnapshotStore
             (S (S (S l))) (InmemTransportRef l)),
     mkState (<[l := mkInmemTransport bound ∅]> (st_transports s))
             (<[S (S (S l)) := mkStaticPeers []]> (st_stores s))
             (S (S (S (S l)))) (st_cluster s) (st_knobs s)).
Proof. by destruct s. Qed.

(** C9. For an identity [addr], [newNode] returns a dependency set
    whose log store and stable store are two new in-memory stores,
    whose snapshot store is the discarding one, whose peer store is a
    new empty in-memory one and whose transport is a new in-memory
    transport without peers, bound to [addr]; the heartbeat, election
    and leader-lease timeouts of its configuration are 50 milliseconds
    each (tens of milliseconds, at most a tenth of the library's
    defaults) and its commit timeout is 25 milliseconds. *)
Theorem newNode_dependencies (addr : string) s :
  addr ≠ "" →
  ∃ nd s' l t,
    newNode addr s = (Done nd, s')
    ∧ (∃ i j, node.Logs nd = InmemStore i ∧ node.Stable nd = InmemStore j
              ∧ i ≠ j)
    ∧ node.Snapshots nd = DiscardSnapshotStore
    ∧ st_stores s' !! node.Peers nd = Some (mkStaticPeers [])
    ∧ node.Transport nd = InmemTransportRef l
    ∧ st_transports s' !! l = Some t
    ∧ LocalAddr t = addr ∧ peers t = ∅
    ∧ HeartbeatTimeout (node.Config nd) = 50 * Millisecond
    ∧ ElectionTimeout (node.Config nd) = 50 * Millisecond
    ∧ LeaderLeaseTimeout (node.Config nd) = 50 * Millisecond
    ∧ CommitTimeout (node.Config nd) = 25 * Millisecond
    ∧ 50 * Millisecond = 50000000 ∧ 25 * Millisecond = 25000000
    ∧ 10 * Millisecond ≤ 50 * Millisecond < 100 * Millisecond
    ∧ 10 * HeartbeatTimeout (node.Config nd) ≤ HeartbeatTimeout DefaultConfig
    ∧ 10 * ElectionTimeout (node.Config nd) ≤ ElectionTimeout DefaultConfig
    ∧ 10 * LeaderLeaseTimeout (node.Config nd)
      ≤ LeaderLeaseTimeout DefaultConfig
    ∧ CommitTimeout (node.Config nd) < CommitTimeout DefaultConfig.
Proof.
  intros Haddr. eexists _, _, (st_next s), _.
  split; [apply newNode_run|]. simpl.
  rewrite !lookup_insert_eq. rewrite decide_False by done.
  split_and!; try done.
  exists (S (st_next s)), (S (S (st_next s))). split_and!; [done..|lia].
Qed.
End new_node.

(** The theorem at the identity of node 0. *)
Lemma newNode_dependencies_witness :
  ∃ nd s',
    newNode (Lib:=quiet_library (FSM:=unit)) "0" (empty_state tt)
      = (Done nd, s')
    ∧ HeartbeatTimeout (node.Config nd) = 50000000.
Proof.
  destruct (newNode_dependencies (Lib:=quiet_library (FSM:=unit)) "0"
              (empty_state tt))
    as (nd & s' & l & t & E & _ & _ & _ & _ & _ & _ & _ & Hh & _).
  { done. }
  exists nd, s'. split; [exact E|]. rewrite Hh. reflexivity.
Defined.

(** ** [Shutdown] *)

Section shutdown.
Context {FSM KnobMem : Type} `{Lib : !@Library FSM KnobMem}.
Implicit Types (w : @World FSM KnobMem) (rafts : list (@Raft FSM)).

Lemma logged_nil w : logged w [] = w.
Proof. destruct w. unfold logged. simpl. by rewrite app_nil_r. Qed.

Lemma logged_logged w e1 e2 : logged (logged w e1) e2 = logged w (e1 ++ e2).
Proof. unfold logged. simpl. by rewrite app_assoc. Qed.

Lemma emit_run e w : emit e w = (Done tt, logged w [e]).
Proof. reflexivity. Qed.

Lemma Raft_Shutdown_run r w :
  Raft_Shutdown r w = (Done (shutdownFuture r), logged w [EvShutdown r]).
Proof. reflexivity. Qed.

Lemma closing_nil w : closing [] w = w.
Proof. by destruct w. Qed.

Lemma closing_closing a b w : closing b (closing a w) = closing (a ++ b) w.
Proof. unfold closing, closed. simpl. by rewrite foldl_app. Qed.

Lemma logged_closing a w e : logged (closing a w) e = closing a (logged w e).
Proof. reflexivity. Qed.

Lemma check_future_ok i r w :
  Shutdown_error r = None →
  check_future i (shutdownFuture r) w
  = (Done tt, closing [r] (logged w [EvFutureError r])).
Proof.
  intros Hr. unfold check_future, Future_Error, mbind, M_bind, bind, emit.
  simpl. by rewrite Hr.
Qed.

Lemma check_future_fail i r err w :
  Shutdown_error r = Some err →
  check_future i (shutdownFuture r) w
  = (Fatal ("failed to shutdown raft node " +:+ Itoa (Z.of_nat i)
            +:+ ": " +:+ err),
     closing [r] (logged w [EvFutureError r])).
Proof.
  intros Hr. unfold check_future, Future_Error, mbind, M_bind, bind, emit.
  simpl. by rewrite Hr.
Qed.

(** The first loop requests the shutdown of every node, in order, and
    cannot stop early. *)
Lemma shutdown_each_run rafts w :
  shutdown_each rafts w
  = (Done (shutdownFuture <$> rafts), logged w (EvShutdown <$> rafts)).
Proof.
  revert w. induction rafts as [|r rafts IH]; intros w; simpl.
  - by rewrite logged_nil.
  - rewrite mbind_unfold. rewrite (bind_Done _ _ _ _ _ (Raft_Shutdown_run r w)).
    rewrite mbind_unfold. rewrite (bind_Done _ _ _ _ _ (IH _)).
    by rewrite logged_logged.
Qed.

Lemma check_futures_ok rafts (i : nat) w :
  Forall (λ r, Shutdown_error r = None) rafts →
  for_range_from i (shutdownFuture <$> rafts) check_future w
  = (Done tt, closing rafts (logged w (EvFutureError <$> rafts))).
Proof.
  intros Hok. revert i w.
  induction Hok as [|r rafts Hr _ IH]; intros i w.
  - simpl. by rewrite logged_nil, closing_nil.
  - rewrite fmap_cons. cbn [for_range_from].
    rewrite (bind_Done _ _ _ _ _ (check_future_ok i r w Hr)).
    rewrite IH. by rewrite logged_closing, logged_logged, closing_closing.
Qed.

Lemma check_futures_fail pre r err post (i : nat) w :
  Forall (λ r, Shutdown_error r = None) pre →
  Shutdown_error r = Some err →
  for_range_from i (shutdownFuture <$> (pre ++ r :: post)) check_future w
  = (Fatal ("failed to shutdown raft node "
            +:+ Itoa (Z.of_nat (i + length pre)) +:+ ": " +:+ err),
     closing (pre ++ [r]) (logged w (EvFutureError <$> (pre ++ [r])))).
Proof.
  intros Hok Hr. revert i w.
  induction Hok as [|r0 pre Hr0 _ IH]; intros i w.
  - cbn [app fmap list_fmap for_range_from length].
    rewrite (bind_Fatal _ _ _ _ _ (check_future_fail i r err w Hr)).
    by rewrite Nat.add_0_r.
  - rewrite <- app_comm_cons, fmap_cons. cbn [for_range_from].
    rewrite (bind_Done _ _ _ _ _ (check_future_ok i r0 w Hr0)).
    rewrite IH. rewrite logged_closing, logged_logged, closing_closing.
    cbn [length app fmap list_fmap].
    by replace (S i + length pre)%nat with (i + S (length pre))%nat by lia.
Qed.

(** Either no shutdown fails, or there is a first one that does. *)
Lemma first_shutdown_error rafts :
  Forall (λ r, Shutdown_error r = None) rafts
  ∨ ∃ pre r err post,
      rafts = pre ++ r :: post
      ∧ Forall (λ r, Shutdown_error r = None) pre
      ∧ Shutdown_error r = Some err.
Proof.
  induction rafts as [|r rafts IH]; [by left|].
  destruct (Shutdown_error r) as [err|] eqn:Hr.
  - right. by exists [], r, err, rafts.
  - destruct IH as [Hok|(pre & r' & err & post & -> & Hpre & Hr')].
    + left. by constructor.
    + right. exists (r :: pre), r', err, post. split_and!; [done| |done].
      by constructor.
Qed.

(** C4. [Shutdown] requests the shutdown of every given node, in
    order, before it waits on any of the futures; only then does it
    check the futures in order.  When none reports an error it
    returns having checked them all; otherwise it fails the test at
    the first future that reports one, naming the index of that node,
    and every node had its shutdown requested by then.  The memory it
    leaves is the one it found with the transports of the engines
    whose futures it checked closed. *)
Theorem Shutdown_collects_then_reports rafts w :
  ∃ out checked,
    Shutdown rafts w
    = (out, closing checked
              (logged w ((EvShutdown <$> rafts)
                         ++ (EvFutureError <$> checked))))
    ∧ ((Forall (λ r, Shutdown_error r = None) rafts
        ∧ checked = rafts ∧ out = Done tt)
       ∨ (∃ pre r err post,
            rafts = pre ++ r :: post
            ∧ Forall (λ r, Shutdown_error r = None) pre
            ∧ Shutdown_error r = Some err
            ∧ checked = pre ++ [r]
            ∧ out = Fatal ("failed to shutdown raft node "
                           +:+ Itoa (Z.of_nat (length pre)) +:+ ": "
                           +:+ err))).
Proof.
  unfold Shutdown. rewrite mbind_unfold.
  rewrite (bind_Done _ _ _ _ _ (shutdown_each_run rafts w)).
  unfold for_range.
  destruct (first_shutdown_error rafts)
    as [Hok|(pre & r & err & post & -> & Hpre & Hr)].
  - exists (Done tt), rafts. rewrite check_futures_ok by done.
    rewrite logged_logged. split; [done|]. by left.
  - eexists _, (pre ++ [r]). rewrite (check_futures_fail _ _ err) by done.
    rewrite logged_logged. split; [done|]. right.
    by exists pre, r, err, post.
Qed.
End shutdown.

(** ** [populatePeerStores] *)

Section populate_facts.
Context {S : Type} `{!PeerStore S}.
Implicit Types (h : gmap loc S) (T : gmap loc InmemTransport).

Lemma populate_pair_same T i store transport h :
  populate_pair T i store i transport h = (Done tt, h).
Proof. unfold populate_pair. by rewrite decide_True. Qed.

Lemma populate_pair_run T i store j transport h s t addrs :
  i ≠ j → h !! store = Some s → T !! transport = Some t →
  Peers s = inl addrs →
  (SetPeers (addrs ++ [LocalAddr t]) s).2 = None →
  populate_pair T i store j transport h
  = (Done tt, <[store := (SetPeers (addrs ++ [LocalAddr t]) s).1]> h).
Proof.
  intros Hij Hs Ht Hp Hset. unfold populate_pair.
  rewrite decide_False by done.
  rewrite mbind_unfold. unfold bind, deref. rewrite Hs, Hp, Ht.
  destruct (SetPeers (addrs ++ [LocalAddr t]) s) as [s' err] eqn:E.
  simpl in Hset. subst err. reflexivity.
Qed.

Lemma populatePeerStores_mismatch stores transports T h :
  length stores ≠ length transports →
  populatePeerStores stores transports T h
  = (Panic "peer stores and tranports length mismatch", h).
Proof. intros Hlen. unfold populatePeerStores. by rewrite decide_True. Qed.

(** With stores that never report an error, the loops run to their
    end whatever the stores hold. *)
Lemma populate_loops_return stores transports T h :
  never_errors S →
  (∀ l, l ∈ stores → is_Some (h !! l)) →
  (∀ l, l ∈ transports → is_Some (T !! l)) →
  ∃ h', for_range stores (λ i store,
          for_range transports (λ j transport,
            populate_pair T i store j transport)) h = (Done tt, h')
        ∧ ∀ l, is_Some (h !! l) → is_Some (h' !! l).
Proof.
  intros [Hpeers Hset] Hstores Htransports.
  set (I := λ (_ : nat) (h0 : gmap loc S), ∀ l, is_Some (h !! l) → is_Some (h0 !! l)).
  destruct (for_range_from_inv I
              (λ i store, for_range transports (λ j transport,
                 populate_pair T i store j transport)) stores 0 h)
    as (h' & E & Hh'); [by intros l| |by exists h'].
  intros i store h0 Hi Hh0. simpl in *.
  destruct (for_range_from_inv I (populate_pair T i store) transports 0 h0)
    as (h1 & E1 & Hh1); [done| |by exists h1].
  intros j transport h1 Hj Hh1. simpl in *.
  destruct (decide (i = j)) as [<-|Hij].
  { exists h1. by rewrite populate_pair_same. }
  destruct (Hh1 store) as [s Hs].
  { apply Hstores. by eapply list_elem_of_lookup_2. }
  destruct (Htransports transport) as [t Ht].
  { by eapply list_elem_of_lookup_2. }
  destruct (Hpeers s) as [addrs Hp].
  eexists. split.
  - by eapply populate_pair_run.
  - intros l Hl. destruct (decide (l = store)) as [->|Hne].
    + rewrite lookup_insert_eq. by eexists.
    + rewrite lookup_insert_ne by done. by apply Hh1.
Qed.

(** C8. [populatePeerStores] panics with its length-mismatch message
    whenever the number of peer stores differs from the number of
    transports, leaving the stores as they were.  When the numbers are
    equal, the references are not nil and the stores' operations never
    report an error, it returns normally: with such stores it panics
    exactly when the numbers differ. *)
Theorem populatePeerStores_panics_on_mismatch stores transports T h :
  (length stores ≠ length transports →
   populatePeerStores stores transports T h
   = (Panic "peer stores and tranports length mismatch", h))
  ∧ (never_errors S →
     (∀ l, l ∈ stores → is_Some (h !! l)) →
     (∀ l, l ∈ transports → is_Some (T !! l)) →
     (length stores = length transports →
      ∃ h', populatePeerStores stores transports T h = (Done tt, h'))
     ∧ ((∃ msg h', populatePeerStores stores transports T h = (Panic msg, h'))
        ↔ length stores ≠ length transports)).
Proof.
  split; [apply populatePeerStores_mismatch|].
  intros Hne Hstores Htransports.
  assert (length stores = length transports →
          ∃ h', populatePeerStores stores transports T h = (Done tt, h'))
    as Hdone.
  { intros Hlen. unfold populatePeerStores. rewrite decide_False by lia.
    destruct (populate_loops_return stores transports T h) as (h' & E & _);
      [done..|]. by exists h'. }
  split; [done|]. split.
  - intros (msg & h' & E) Hlen. destruct (Hdone Hlen) as (h'' & E').
    congruence.
  - intros Hlen. eexists _, _. by apply populatePeerStores_mismatch.
Qed.
End populate_facts.

Lemma StaticPeers_never_errors : never_errors StaticPeers.
Proof. split; [intros s; by eexists|done]. Qed.

Section static_peers.
Implicit Types (h : gmap loc StaticPeers) (T : gmap loc InmemTransport).

(** The inner loop on a static peer store, from transport index [j]:
    it appends the addresses of the transports it walks over, the one
    at index [i] apart. *)
Lemma populate_inner_static T (i : nat) store transports addrs :
  Forall2 (λ l a, LocalAddr <$> T !! l = Some a) transports addrs →
  ∀ (j : nat) h known,
    h !! store = Some (mkStaticPeers known) →
    for_range_from j transports (populate_pair T i store) h
    = (Done tt,
       <[store := mkStaticPeers
                    (known ++ if decide (j ≤ i)%nat
                              then delete (i - j)%nat addrs else addrs)]> h).
Proof.
  induction 1 as [|l a transports addrs Ha _ IH]; intros j h known Hs; simpl.
  - destruct (decide (j ≤ i)%nat); simpl; rewrite app_nil_r;
      by rewrite insert_id.
  - destruct (T !! l) as [t|] eqn:Ht; [|done].
    injection Ha as <-.
    destruct (decide (i = j)) as [->|Hij].
    + rewrite (bind_Done _ _ _ _ _ (populate_pair_same T j store l h)).
      rewrite (IH (S j) h known Hs).
      rewrite decide_False by lia. rewrite decide_True by lia.
      by rewrite Nat.sub_diag.
    + erewrite bind_Done; last first.
      { eapply (populate_pair_run T i store j l h _ t known); done. }
      simpl. erewrite IH; last by rewrite lookup_insert_eq.
      rewrite insert_insert_eq. do 3 f_equal.
      rewrite <- app_assoc. f_equal. simpl.
      destruct (decide (j ≤ i)%nat).
      * rewrite decide_True by lia.
        by replace (i - j)%nat with (S (i - S j)) by lia.
      * by rewrite decide_False by lia.
Qed.

(** The outer loop, from store index [i]. *)
Lemma populate_outer_static T transports addrs :
  Forall2 (λ l a, LocalAddr <$> T !! l = Some a) transports addrs →
  ∀ stores (i : nat) h,
    NoDup stores →
    (∀ l, l ∈ stores → h !! l = Some (mkStaticPeers [])) →
    ∃ h',
      for_range_from i stores (λ i store,
        for_range transports (λ j transport,
          populate_pair T i store j transport)) h = (Done tt, h')
      ∧ (∀ (k : nat) l, stores !! k = Some l →
           h' !! l = Some (mkStaticPeers (delete (i + k)%nat addrs)))
      ∧ (∀ l, l ∉ stores → h' !! l = h !! l).
Proof.
  intros Haddrs stores.
  induction stores as [|store stores IH]; intros i h Hnodup Hempty; simpl.
  - exists h. by split_and!.
  - apply NoDup_cons in Hnodup as [Hnotin Hnodup].
    unfold for_range at 1.
    erewrite bind_Done; last first.
    { apply (populate_inner_static T i store transports addrs Haddrs 0 h []).
      apply Hempty. by left. }
    simpl. rewrite Nat.sub_0_r.
    set (h1 := <[store := mkStaticPeers (delete i addrs)]> h).
    destruct (IH (S i) h1 Hnodup) as (h' & E & Hin & Hout).
    { intros l Hl. unfold h1. rewrite lookup_insert_ne by set_solver.
      apply Hempty. by right. }
    exists h'. split_and!; [done| |].
    + intros [|k] l Hk; simpl in Hk.
      * injection Hk as <-. rewrite Hout by done. unfold h1.
        by rewrite lookup_insert_eq, Nat.add_0_r.
      * replace (i + S k)%nat with (S i + k)%nat by lia. by apply Hin.
    + intros l Hl. apply not_elem_of_cons in Hl as [Hne Hl].
      rewrite Hout by done. unfold h1. by rewrite lookup_insert_ne.
Qed.

(** The whole of [populatePeerStores] on empty static peer stores. *)
Lemma populate_static_empty_run stores transports addrs T h :
  length stores = length transports →
  NoDup stores →
  (∀ l, l ∈ stores → h !! l = Some (mkStaticPeers [])) →
  Forall2 (λ l a, LocalAddr <$> T !! l = Some a) transports addrs →
  ∃ h',
    populatePeerStores stores transports T h = (Done tt, h')
    ∧ (∀ (i : nat) l, stores !! i = Some l →
         h' !! l = Some (mkStaticPeers (delete i addrs)))
    ∧ (∀ l, l ∉ stores → h' !! l = h !! l).
Proof.
  intros Hlen Hnodup Hempty Haddrs.
  destruct (populate_outer_static T transports addrs Haddrs stores 0 h)
    as (h' & E & Hin & Hout); [done..|].
  exists h'. split_and!; [|done|done].
  unfold populatePeerStores. by rewrite decide_False by lia.
Qed.

(** C5. On n distinct, initially empty in-memory peer stores and n
    transports, [populatePeerStores] returns normally and leaves in the
    store of each node [i] the local addresses of the transports in
    ascending index order with the one at index [i] left out: n - 1
    addresses, which are those of the other nodes and, the addresses
    being distinct, do not include the node's own.  No other store is
    touched. *)
Theorem populatePeerStores_other_addresses stores transports addrs T h :
  length stores = length transports →
  NoDup stores →
  (∀ l, l ∈ stores → h !! l = Some (mkStaticPeers [])) →
  Forall2 (λ l a, LocalAddr <$> T !! l = Some a) transports addrs →
  ∃ h',
    populatePeerStores stores transports T h = (Done tt, h')
    ∧ (∀ (i : nat) l, stores !! i = Some l →
         h' !! l = Some (mkStaticPeers (delete i addrs))
         ∧ length (delete i addrs) = (length stores - 1)%nat
         ∧ (∀ k : nat,
              delete i addrs !! k
              = addrs !! (if decide (k < i)%nat then k else S k))
         ∧ (NoDup addrs → ∀ a, addrs !! i = Some a → a ∉ delete i addrs))
    ∧ (∀ l, l ∉ stores → h' !! l = h !! l).
Proof.
  intros Hlen Hnodup Hempty Haddrs.
  destruct (populate_outer_static T transports addrs Haddrs stores 0 h)
    as (h' & E & Hin & Hout); [done..|].
  exists h'. split_and!; [|  |done].
  - unfold populatePeerStores. by rewrite decide_False by lia.
  - intros i l Hi. pose proof (Forall2_length _ _ _ Haddrs) as Hlen'.
    pose proof (lookup_lt_Some _ _ _ Hi) as Hlt.
    split_and!.
    + by apply (Hin i l).
    + rewrite length_delete; [lia|]. apply lookup_lt_is_Some. lia.
    + intros k. destruct (decide (k < i)%nat).
      * by apply list_lookup_delete_lt.
      * apply list_lookup_delete_ge. lia.
    + intros Hnd a Ha Hin'.
      apply list_elem_of_lookup in Hin' as [k Hk].
      assert (addrs !! (if decide (k < i)%nat then k else S k) = Some a) as Hk'.
      { rewrite <- Hk. symmetry. destruct (decide (k < i)%nat).
        - by apply list_lookup_delete_lt.
        - apply list_lookup_delete_ge. lia. }
      pose proof (NoDup_lookup _ _ _ _ Hnd Ha Hk') as Heq.
      destruct (decide (k < i)%nat); lia.
Qed.
End static_peers.

(** ** [connectLoobackTransports] *)

Section connect_facts.
Implicit Types (h : gmap loc InmemTransport) (l : loc) (a : string).

Lemma connect_call_run h l1 a l2 t1 :
  h !! l1 = Some t1 →
  connect_call l1 a l2 h = (Done tt, <[l1 := Connect a l2 t1]> h).
Proof.
  intros H1. unfold connect_call. rewrite mbind_unfold.
  unfold bind, deref. by rewrite H1.
Qed.

(** Registering again what is registered already changes nothing. *)
Lemma connect_call_noop h l1 a l2 :
  registered h l1 a l2 → connect_call l1 a l2 h = (Done tt, h).
Proof.
  intros (t1 & H1 & Hreg). rewrite (connect_call_run _ _ _ _ _ H1).
  f_equal. apply insert_id. rewrite H1. f_equal.
  destruct t1 as [addr ps]. unfold Connect. simpl in *.
  by rewrite insert_id.
Qed.

Lemma addr_at_connect h l1 a l2 t1 l :
  h !! l1 = Some t1 →
  addr_at (<[l1 := Connect a l2 t1]> h) l = addr_at h l.
Proof.
  intros H1. unfold addr_at. destruct (decide (l = l1)) as [->|Hne].
  - by rewrite lookup_insert_eq, H1.
  - by rewrite lookup_insert_ne.
Qed.

Lemma registered_connect_new h l1 a l2 t1 :
  registered (<[l1 := Connect a l2 t1]> h) l1 a l2.
Proof.
  eexists. rewrite lookup_insert_eq. split; [done|].
  simpl. by rewrite lookup_insert_eq.
Qed.

Lemma registered_connect_old h l1 a l2 t1 l b l' :
  h !! l1 = Some t1 →
  registered h l b l' →
  (l = l1 → b = a → l' = l2) →
  registered (<[l1 := Connect a l2 t1]> h) l b l'.
Proof.
  intros H1 (t & Ht & Hreg) Hsame. destruct (decide (l = l1)) as [->|Hne].
  - eexists. rewrite lookup_insert_eq. split; [done|]. simpl.
    assert (t = t1) as -> by congruence.
    destruct (decide (b = a)) as [->|Hb].
    + rewrite lookup_insert_eq. f_equal. symmetry. by apply Hsame.
    + by rewrite lookup_insert_ne.
  - exists t. by rewrite lookup_insert_ne.
Qed.

(** One registration among transports with distinct addresses: it
    returns, keeps the addresses, touches the registering transport
    only, and keeps what was connected so. *)
Lemma connect_call_spec transports h x y ay :
  distinct_addrs h transports →
  is_Some (h !! x) → y ∈ transports → addr_at h y = Some ay →
  ∃ h', connect_call x ay y h = (Done tt, h')
        ∧ (∀ l, addr_at h' l = addr_at h l)
        ∧ (∀ l, l ≠ x → h' !! l = h !! l)
        ∧ connected h' x y
        ∧ (∀ l l', l' ∈ transports → connected h l l' → connected h' l l').
Proof.
  intros Hdist [tx Hx] Hy Hay. eexists. split; [by apply connect_call_run|].
  split_and!.
  - intros l. by apply addr_at_connect.
  - intros l Hne. by rewrite lookup_insert_ne.
  - exists ay. split; [by rewrite addr_at_connect|].
    apply registered_connect_new.
  - intros l l' Hl' (b & Hb & Hreg). exists b.
    split; [by rewrite addr_at_connect|].
    apply registered_connect_old; [done..|].
    intros -> ->. by apply (Hdist l' y ay).
Qed.

Lemma distinct_addrs_same_addrs h h' transports :
  (∀ l, addr_at h' l = addr_at h l) →
  distinct_addrs h transports → distinct_addrs h' transports.
Proof.
  intros Heq Hdist l l' a Hl Hl'. rewrite !Heq. by apply Hdist.
Qed.

Lemma addr_at_is_Some h l : is_Some (h !! l) ↔ is_Some (addr_at h l).
Proof. unfold addr_at. by rewrite fmap_is_Some. Qed.

(** The body of the inner loop, on two of the transports. *)
Lemma connect_pair_spec transports h (i j : nat) x y :
  distinct_addrs h transports →
  x ∈ transports → y ∈ transports →
  is_Some (h !! x) → is_Some (h !! y) →
  ∃ h', connect_pair i x j y h = (Done tt, h')
        ∧ (∀ l, addr_at h' l = addr_at h l)
        ∧ (∀ l, l ∉ transports → h' !! l = h !! l)
        ∧ (i ≠ j → connected h' x y ∧ connected h' y x)
        ∧ (∀ l l', l' ∈ transports → connected h l l' → connected h' l l').
Proof.
  intros Hdist Hx Hy Hvx Hvy. unfold connect_pair.
  destruct (decide (i ≠ j)) as [Hij|Hij]; last first.
  { exists h. by split_and!. }
  destruct Hvy as [ty Hty].
  rewrite mbind_unfold. unfold bind at 1, deref at 1. rewrite Hty.
  destruct (connect_call_spec transports h x y (LocalAddr ty))
    as (h1 & E1 & Ha1 & Hf1 & Hc1 & Hp1); [done..| |].
  { unfold addr_at. by rewrite Hty. }
  rewrite mbind_unfold. rewrite (bind_Done _ _ _ _ _ E1).
  assert (is_Some (h1 !! x)) as [tx Htx].
  { apply addr_at_is_Some. rewrite Ha1. by apply addr_at_is_Some. }
  rewrite mbind_unfold. unfold bind at 1, deref at 1. rewrite Htx.
  destruct (connect_call_spec transports h1 y x (LocalAddr tx))
    as (h2 & E2 & Ha2 & Hf2 & Hc2 & Hp2).
  { by apply (distinct_addrs_same_addrs h). }
  { apply addr_at_is_Some. rewrite Ha1. apply addr_at_is_Some. by eexists. }
  { done. }
  { unfold addr_at. by rewrite Htx. }
  exists h2. split_and!; [done| | | |].
  - intros l. by rewrite Ha2, Ha1.
  - intros l Hl. rewrite Hf2, Hf1; [done|set_solver..].
  - intros _. split; [by apply Hp2|done].
  - intros l l' Hl' Hc. by apply Hp2, Hp1.
Qed.

(** The inner loop for the transport [x] at index [i]. *)
Lemma connect_inner_spec transports h (i : nat) x :
  distinct_addrs h transports →
  (∀ l, l ∈ transports → is_Some (h !! l)) →
  x ∈ transports →
  ∃ h', for_range transports (connect_pair i x) h = (Done tt, h')
        ∧ (∀ l, addr_at h' l = addr_at h l)
        ∧ (∀ l, l ∉ transports → h' !! l = h !! l)
        ∧ (∀ (j : nat) y, transports !! j = Some y → i ≠ j →
             connected h' x y ∧ connected h' y x)
        ∧ (∀ l l', l' ∈ transports → connected h l l' → connected h' l l').
Proof.
  intros Hdist Hvalid Hx.
  set (I := λ (k : nat) h',
    (∀ l, addr_at h' l = addr_at h l)
    ∧ (∀ l, l ∉ transports → h' !! l = h !! l)
    ∧ (∀ (j : nat) y, (j < k)%nat → transports !! j = Some y → i ≠ j →
         connected h' x y ∧ connected h' y x)
    ∧ (∀ l l', l' ∈ transports → connected h l l' → connected h' l l')).
  destruct (for_range_from_inv I (connect_pair i x) transports 0 h)
    as (h' & E & Ha & Hf & Hc & Hp).
  { unfold I. split_and!; [done..| |done]. intros j y Hj. lia. }
  { intros k y h1 Hk (Ha1 & Hf1 & Hc1 & Hp1). simpl in *.
    assert (y ∈ transports) as Hy by by eapply list_elem_of_lookup_2.
    assert (∀ l, l ∈ transports → is_Some (h1 !! l)) as Hvalid1.
    { intros l Hl. apply addr_at_is_Some. rewrite Ha1.
      by apply addr_at_is_Some, Hvalid. }
    destruct (connect_pair_spec transports h1 i k x y)
      as (h2 & E2 & Ha2 & Hf2 & Hc2 & Hp2); [|done|done|by auto..|].
    { by apply (distinct_addrs_same_addrs h). }
    exists h2. split; [done|]. unfold I. split_and!.
    - intros l. by rewrite Ha2, Ha1.
    - intros l Hl. by rewrite Hf2, Hf1.
    - intros j z Hj Hz Hij. destruct (decide (j = k)) as [->|Hjk].
      + assert (z = y) as -> by congruence. by apply Hc2.
      + destruct (Hc1 j z) as [C1 C2]; [lia|done..|].
        split; apply Hp2; done || by eapply list_elem_of_lookup_2.
    - intros l l' Hl' Hc. by apply Hp2, Hp1. }
  exists h'. split_and!; [done..| |done].
  intros j y Hj Hij. apply (Hc j y); [|done..].
  simpl. by eapply lookup_lt_Some.
Qed.

(** The whole of [connectLoobackTransports]. *)
Lemma connect_outer_spec transports h :
  distinct_addrs h transports →
  (∀ l, l ∈ transports → is_Some (h !! l)) →
  ∃ h', connectLoobackTransports transports h = (Done tt, h')
        ∧ (∀ l, addr_at h' l = addr_at h l)
        ∧ (∀ l, l ∉ transports → h' !! l = h !! l)
        ∧ (∀ (i j : nat) x y, transports !! i = Some x →
             transports !! j = Some y → i ≠ j → connected h' x y).
Proof.
  intros Hdist Hvalid.
  set (I := λ (k : nat) h',
    (∀ l, addr_at h' l = addr_at h l)
    ∧ (∀ l, l ∉ transports → h' !! l = h !! l)
    ∧ (∀ (i j : nat) x y, (i < k)%nat → transports !! i = Some x →
         transports !! j = Some y → i ≠ j →
         connected h' x y ∧ connected h' y x)).
  destruct (for_range_from_inv I
              (λ i x, for_range transports (connect_pair i x)) transports 0 h)
    as (h' & E & Ha & Hf & Hc).
  { unfold I. split_and!; [done..|]. intros i j x y Hi. lia. }
  { intros k x h1 Hk (Ha1 & Hf1 & Hc1). simpl in *.
    assert (x ∈ transports) as Hx by by eapply list_elem_of_lookup_2.
    destruct (connect_inner_spec transports h1 k x)
      as (h2 & E2 & Ha2 & Hf2 & Hc2 & Hp2); [| |done|].
    { by apply (distinct_addrs_same_addrs h). }
    { intros l Hl. apply addr_at_is_Some. rewrite Ha1.
      by apply addr_at_is_Some, Hvalid. }
    exists h2. split; [done|]. unfold I. split_and!.
    - intros l. by rewrite Ha2, Ha1.
    - intros l Hl. by rewrite Hf2, Hf1.
    - intros i j z y Hi Hz Hy Hij. destruct (decide (i = k)) as [->|Hik].
      + assert (z = x) as -> by congruence. by apply (Hc2 j y).
      + destruct (Hc1 i j z y) as [C1 C2]; [lia|done..|].
        split; apply Hp2; done || by eapply list_elem_of_lookup_2. }
  exists h'. split_and!; [done..|].
  intros i j x y Hx Hy Hij. apply (Hc i j x y); [|done..].
  simpl. by eapply lookup_lt_Some.
Qed.

(** Connecting once more transports that are all connected to each
    other changes nothing. *)
Lemma connect_again transports h :
  (∀ (i j : nat) x y, transports !! i = Some x → transports !! j = Some y →
     i ≠ j → connected h x y) →
  connectLoobackTransports transports h = (Done tt, h).
Proof.
  intros Hall. unfold connectLoobackTransports, for_range.
  apply for_range_from_id. intros i x Hx. simpl in *.
  apply for_range_from_id. intros j y Hy. simpl in *.
  unfold connect_pair. destruct (decide (i ≠ j)) as [Hij|]; [|done].
  destruct (Hall i j x y) as (ay & Hay & Hxy); [done..|].
  destruct (Hall j i y x) as (ax & Hax & Hyx); [done..|].
  unfold addr_at in Hay, Hax.
  destruct (h !! y) as [ty|] eqn:Hty; [|done].
  destruct (h !! x) as [tx|] eqn:Htx; [|done].
  simpl in Hay, Hax. injection Hay as <-. injection Hax as <-.
  rewrite mbind_unfold. unfold bind at 1, deref at 1. rewrite Hty.
  rewrite mbind_unfold. rewrite (bind_Done _ _ _ _ _ (connect_call_noop _ _ _ _ Hxy)).
  rewrite mbind_unfold. unfold bind at 1, deref at 1. rewrite Htx.
  by apply connect_call_noop.
Qed.

(** C6. On transports that are not nil and have distinct local
    addresses, [connectLoobackTransports] returns normally and, for
    every ordered pair of distinct indices (i, j), leaves in transport
    i the registration of transport j's local address with transport
    j's handle: the fabric is a complete graph in both directions.  It
    changes no address and no other transport.  A registration that is
    there already is written again with no change, and so connecting
    the same transports once more leaves the fabric as it is. *)
Theorem connectLoobackTransports_complete transports h :
  (∀ l, l ∈ transports → is_Some (h !! l)) →
  distinct_addrs h transports →
  ∃ h',
    connectLoobackTransports transports h = (Done tt, h')
    ∧ (∀ (i j : nat) x y, transports !! i = Some x → transports !! j = Some y →
         i ≠ j →
         ∃ tx ty, h' !! x = Some tx ∧ h !! y = Some ty
                  ∧ peers tx !! LocalAddr ty = Some y)
    ∧ (∀ l, addr_at h' l = addr_at h l)
    ∧ (∀ l, l ∉ transports → h' !! l = h !! l)
    ∧ (∀ x a y, registered h' x a y → connect_call x a y h' = (Done tt, h'))
    ∧ connectLoobackTransports transports h' = (Done tt, h').
Proof.
  intros Hvalid Hdist.
  destruct (connect_outer_spec transports h Hdist Hvalid)
    as (h' & E & Ha & Hf & Hc).
  exists h'. split_and!; [done| |done|done| |].
  - intros i j x y Hx Hy Hij.
    destruct (Hc i j x y Hx Hy Hij) as (a & Hay & tx & Htx & Hreg).
    rewrite Ha in Hay. unfold addr_at in Hay.
    destruct (h !! y) as [ty|]; [|done]. injection Hay as <-.
    by exists tx, ty.
  - intros x a y. apply connect_call_noop.
  - by apply connect_again.
Qed.
End connect_facts.

(** ** [Cluster] *)

Lemma pretty_N_go_length (x : N) (s : string) :
  (String.length s ≤ String.length (pretty_N_go x s))%nat.
Proof.
  revert s. induction (N.lt_wf_0 x) as [x _ IH]; intros s.
  destruct (decide (x = 0)%N) as [->|Hx]; [by rewrite pretty_N_go_0|].
  rewrite pretty_N_go_step by lia.
  etrans; [|apply IH; apply N.div_lt; lia]. simpl. lia.
Qed.

Lemma Itoa_nonempty (i : Z) : Itoa i ≠ "".
Proof.
  assert (∀ p : positive, pretty p ≠ "") as Hpos.
  { intros p Hp. unfold pretty, pretty_positive, pretty, pretty_N in Hp.
    rewrite decide_False in Hp by done.
    pose proof (pretty_N_go_length (N.pos p / 10)
                  (String (pretty_N_char (N.pos p `mod` 10)) "")) as Hlen.
    rewrite pretty_N_go_step in Hp by lia. rewrite Hp in Hlen.
    simpl in Hlen. lia. }
  unfold Itoa, pretty, pretty_Z. destruct i as [|p|p]; [done|apply Hpos|done].
Qed.

Lemma Itoa_inj (i j : Z) : Itoa i = Itoa j → i = j.
Proof. apply (inj pretty). Qed.

Section cluster_facts.
Context {FSM KnobMem : Type} `{Lib : !@Library FSM KnobMem}.
Implicit Types (w : @World FSM KnobMem) (s : @State KnobMem)
  (knobs : list (@Knob KnobMem)) (fsms : list FSM).

Lemma zoom_run {St St' A} (proj : St → St') (upd : St' → St → St)
    (m : M St' A) (st : St) o st' :
  m (proj st) = (o, st') → zoom proj upd m st = (o, upd st' st).
Proof. intros E. unfold zoom. by rewrite E. Qed.

Lemma on_state_run {A} (m : M State A) w o s' :
  m (w_state w) = (o, s') → on_state m w = (o, mkWorld s' (w_trace w)).
Proof. intros E. unfold on_state, zoom. by rewrite E. Qed.

(** The first loop of [Cluster]: node [i + k] gets the transport at
    the [4 k]-th new reference, bound to the decimal form of its
    index and without peers, and the empty peer store three
    references further. *)
Lemma build_nodes_spec (count : nat) : ∀ (i : nat) s,
  ∃ s',
    build_nodes i count s
    = (Done ((λ k, st_next s + 4 * k + 3)%nat <$> seq 0 count,
             (λ k, st_next s + 4 * k)%nat <$> seq 0 count), s')
    ∧ st_next s' = (st_next s + 4 * count)%nat
    ∧ st_knobs s' = st_knobs s
    ∧ (∀ k : nat, (k < count)%nat →
         st_transports s' !! (st_next s + 4 * k)%nat
         = Some (mkInmemTransport (Itoa (Z.of_nat (i + k))) ∅)
         ∧ st_stores s' !! (st_next s + 4 * k + 3)%nat
           = Some (mkStaticPeers [])
         ∧ ∃ nd, nodes (st_cluster s') !! Z.of_nat (i + k) = Some nd
                 ∧ node.Peers nd = (st_next s + 4 * k + 3)%nat
                 ∧ node.Transport nd
                   = InmemTransportRef (st_next s + 4 * k)%nat)
    ∧ (∀ l : loc, (l < st_next s)%nat →
         st_transports s' !! l = st_transports s !! l
         ∧ st_stores s' !! l = st_stores s !! l)
    ∧ (∀ z : Z, z < Z.of_nat i →
         nodes (st_cluster s') !! z = nodes (st_cluster s) !! z).
Proof.
  induction count as [|count IH]; intros i s.
  - exists s. simpl. split_and!; [done|lia|done| |done|done]. intros k Hk. lia.
  - simpl build_nodes. rewrite mbind_unfold.
    rewrite (bind_Done _ _ _ _ _ (newNode_run _ s)).
    rewrite decide_False by apply Itoa_nonempty.
    rewrite mbind_unfold. unfold bind at 1, modify at 1. simpl node.Transport.
    rewrite mbind_unfold. unfold bind at 1, ret at 1.
    match goal with |- ∃ _, (_ ≫= _) ?s2 = _ ∧ _ =>
      destruct (IH (S i) s2) as (s' & E & Hnext & Hknobs & Hnew & Hold & Hnodes)
    end.
    cbn [st_next st_transports st_stores st_cluster st_knobs set_cluster nodes]
      in E, Hnext, Hknobs, Hnew, Hold, Hnodes.
    rewrite mbind_unfold. rewrite (bind_Done _ _ _ _ _ E).
    cbn [node.Peers].
    exists s'. split_and!.
    + assert (∀ f g : nat → nat, (∀ k, g k = f (S k)) →
                f <$> seq 0 (S count) = f 0%nat :: (g <$> seq 0 count)) as Hseq.
      { intros f g Hfg. simpl. f_equal.
        rewrite <- fmap_S_seq, <- list_fmap_compose.
        apply list_fmap_ext. intros ? k ?. simpl. by rewrite Hfg. }
      unfold ret.
      rewrite (Hseq (λ k, st_next s + 4 * k + 3)%nat
                 (λ k, S (S (S (S (st_next s)))) + 4 * k + 3)%nat)
        by (intros; lia).
      rewrite (Hseq (λ k, st_next s + 4 * k)%nat
                 (λ k, S (S (S (S (st_next s)))) + 4 * k)%nat)
        by (intros; lia).
      do 4 f_equal; lia.
    + lia.
    + done.
    + intros [|k] Hk.
      * replace (st_next s + 4 * 0)%nat with (st_next s) by lia.
        replace (st_next s + 3)%nat with (S (S (S (st_next s)))) by lia.
        rewrite Nat.add_0_r.
        destruct (Hold (st_next s)) as [-> _]; [lia|].
        destruct (Hold (S (S (S (st_next s))))) as [_ ->]; [lia|].
        rewrite (Hnodes (Z.of_nat i)) by lia.
        rewrite !lookup_insert_eq. split_and!; [done..|].
        eexists. by split_and!.
      * destruct (Hnew k) as (Ht & Hs & nd & Hnd & Hp & Htr); [lia|].
        replace (st_next s + 4 * S k)%nat
          with (S (S (S (S (st_next s)))) + 4 * k)%nat by lia.
        replace (i + S k)%nat with (S i + k)%nat by lia.
        split_and!; [done..|]. by exists nd.
    + intros l Hl. destruct (Hold l) as [-> ->]; [lia|].
      rewrite !lookup_insert_ne by lia. done.
    + intros z Hz. rewrite Hnodes by lia. rewrite lookup_insert_ne by lia.
      done.
Qed.

(** The node the first loop of [Cluster] stores at an index is the one
    [newNode] returns for the decimal form of that index, and the loop
    stores nothing at the indices beyond its last. *)
Lemma build_nodes_nodes (count : nat) : ∀ (i : nat) s r s',
  build_nodes i count s = (Done r, s') →
  (∀ k : nat, (k < count)%nat →
     ∃ nd, nodes (st_cluster s') !! Z.of_nat (i + k) = Some nd
           ∧ ∀ s0, st_next s0 = (st_next s + 4 * k)%nat →
                   (newNode (Itoa (Z.of_nat (i + k))) s0).1 = Done nd)
  ∧ (∀ z : Z, Z.of_nat (i + count) ≤ z →
       nodes (st_cluster s') !! z = nodes (st_cluster s) !! z).
Proof.
  induction count as [|count IH]; intros i s r s' E.
  - injection E as <- <-. split; [intros k Hk; lia|done].
  - simpl build_nodes in E. rewrite mbind_unfold in E.
    rewrite (bind_Done _ _ _ _ _ (newNode_run _ s)) in E.
    rewrite decide_False in E by apply Itoa_nonempty.
    rewrite mbind_unfold in E. unfold bind at 1, modify at 1 in E.
    simpl node.Transport in E.
    rewrite mbind_unfold in E. unfold bind at 1, ret at 1 in E.
    rewrite mbind_unfold in E. unfold bind in E.
    match type of E with
    | context [build_nodes (S i) count ?s2] =>
        destruct (build_nodes_spec count (S i) s2)
          as (s2' & E2 & _ & _ & _ & _ & Hbelow);
        pose proof (IH (S i) s2 _ _ E2) as [Hin Habove];
        rewrite E2 in E
    end.
    cbn [st_next st_transports st_stores st_cluster st_knobs set_cluster nodes]
      in Hin, Habove, Hbelow.
    injection E as <- <-. split.
    + intros [|k] Hk.
      * rewrite Nat.add_0_r, (Hbelow (Z.of_nat i)) by lia.
        rewrite lookup_insert_eq. eexists. split; [done|].
        intros s0 Hs0. rewrite newNode_run. cbn [fst].
        rewrite Hs0, Nat.mul_0_r, Nat.add_0_r. done.
      * destruct (Hin k) as (nd & Hnd & Hnew); [lia|].
        replace (i + S k)%nat with (S i + k)%nat by lia.
        exists nd. split; [done|]. intros s0 Hs0. apply Hnew. lia.
    + intros z Hz. rewrite Habove by lia. by rewrite lookup_insert_ne by lia.
Qed.

(** The addresses of the nodes of a cluster of [n] nodes. *)
Lemma node_addrs_lookup (n k : nat) :
  (k < n)%nat →
  ((λ i : nat, Itoa (Z.of_nat i)) <$> seq 0 n) !! k = Some (Itoa (Z.of_nat k)).
Proof.
  intros Hk. rewrite list_lookup_fmap, lookup_seq_lt by done. done.
Qed.

(** What [Cluster] has done when it comes to the knobs: the nodes are
    built, each transport has every other one registered under its
    address, and each peer store lists the addresses of the other
    nodes in index order.  The node at index i is the one [newNode]
    returns for the identity i, there is no node at another index, and
    the objects allocated earlier are as they were.  The log of calls
    is as it was. *)
Lemma Cluster_wires_full fsms knobs w :
  let n := length fsms in
  let base := st_next (w_state w) in
  ∃ s,
    Cluster fsms knobs w
    = bind (for_range knobs (λ _ knob, call_init knob))
        (λ _, bind (start_rafts 0 fsms)
                (λ rafts, ret (rafts,
                   Shutdown rafts;;
                   for_range knobs (λ _ knob, call_cleanup knob))))
        (mkWorld s (w_trace w))
    ∧ st_knobs s = st_knobs (w_state w)
    ∧ wired n base s
    ∧ st_next s = (base + 4 * n)%nat
    ∧ (∀ i : nat, (i < n)%nat →
         ∃ nd, nodes (st_cluster s) !! Z.of_nat i = Some nd
               ∧ ∀ s0, st_next s0 = (base + 4 * i)%nat →
                       (newNode (Itoa (Z.of_nat i)) s0).1 = Done nd)
    ∧ (∀ z : Z, z < 0 ∨ Z.of_nat n ≤ z → nodes (st_cluster s) !! z = None)
    ∧ (∀ l : loc, (l < base)%nat →
         st_transports s !! l = st_transports (w_state w) !! l
         ∧ st_stores s !! l = st_stores (w_state w) !! l).
Proof.
  intros n base. unfold Cluster. fold n.
  set (s0 := set_cluster (λ _, mkCluster ∅) (w_state w)).
  rewrite mbind_unfold.
  rewrite (bind_Done _ _ _ _ _
             (on_state_run (modify _) w (Done tt) s0 eq_refl)).
  destruct (build_nodes_spec n 0 s0)
    as (s1 & E1 & Hnext1 & Hknobs1 & Hnew1 & Hold1 & Hbelow1).
  destruct (build_nodes_nodes n 0 s0 _ _ E1) as [Hnodes1 Habove1].
  change (st_next s0) with base in *.
  rewrite mbind_unfold.
  rewrite (bind_Done _ _ _ _ _
             (on_state_run _ (mkWorld s0 (w_trace w)) _ _ E1)).
  cbn [w_trace].
  set (stores := (λ k, base + 4 * k + 3)%nat <$> seq 0 n) in *.
  set (transports := (λ k, base + 4 * k)%nat <$> seq 0 n) in *.
  assert (∀ l, l ∈ transports ↔ ∃ k : nat, (k < n)%nat ∧ l = (base + 4 * k)%nat)
    as Hin.
  { intros l. unfold transports. rewrite list_elem_of_fmap.
    setoid_rewrite elem_of_seq. split.
    - intros (k & -> & Hk). exists k. split; [lia|done].
    - intros (k & Hk & ->). exists k. split; [done|lia]. }
  assert (∀ k : nat, (k < n)%nat → transports !! k = Some (base + 4 * k)%nat)
    as Hts.
  { intros k Hk. unfold transports.
    by rewrite list_lookup_fmap, lookup_seq_lt. }
  assert (∀ k : nat, (k < n)%nat → stores !! k = Some (base + 4 * k + 3)%nat)
    as Hss.
  { intros k Hk. unfold stores. by rewrite list_lookup_fmap, lookup_seq_lt. }
  (* the fabric *)
  destruct (connect_outer_spec transports (st_transports s1))
    as (h2 & E2 & Ha2 & Hf2 & Hc2).
  { intros l l' a (k & Hk & ->)%Hin (k' & Hk' & ->)%Hin. unfold addr_at.
    destruct (Hnew1 k Hk) as (-> & _). destruct (Hnew1 k' Hk') as (-> & _).
    simpl. intros [= <-] [= Heq]. apply Itoa_inj in Heq. f_equal. lia. }
  { intros l (k & Hk & ->)%Hin. destruct (Hnew1 k Hk) as (-> & _). by eexists. }
  rewrite mbind_unfold.
  rewrite (bind_Done _ _ _ _ _
             (on_state_run _ (mkWorld s1 (w_trace w)) _ _
                (zoom_run st_transports _ _ s1 _ _ E2))).
  cbn [w_trace].
  (* the peer directories *)
  destruct (populate_static_empty_run stores transports
              ((λ i : nat, Itoa (Z.of_nat i)) <$> seq 0 n) h2 (st_stores s1))
    as (h3 & E3 & Hs3 & Hf3).
  { unfold stores, transports. by rewrite !length_fmap. }
  { unfold stores. apply NoDup_fmap_2; [|apply NoDup_seq].
    intros k k' Hkk. lia. }
  { intros l. unfold stores. rewrite list_elem_of_fmap.
    setoid_rewrite elem_of_seq. intros (k & -> & Hk).
    destruct (Hnew1 k) as (_ & -> & _); [lia|done]. }
  { unfold transports. apply Forall2_fmap, Forall_Forall2_diag, Forall_forall.
    intros k Hk%elem_of_seq. fold (addr_at h2 (base + 4 * k)%nat).
    rewrite Ha2. unfold addr_at. destruct (Hnew1 k) as (-> & _); [lia|done]. }
  set (s2 := set_transports (λ _, h2) s1).
  assert ((λ s, zoom st_stores (λ h, set_stores (λ _, h))
                  (populatePeerStores stores transports (st_transports s)) s) s2
          = (Done tt, set_stores (λ _, h3) s2)) as E3'.
  { unfold zoom, s2. cbn [st_transports st_stores set_transports].
    by rewrite E3. }
  rewrite mbind_unfold.
  rewrite (bind_Done _ _ _ _ _
             (on_state_run _ (mkWorld s2 (w_trace w)) _ _ E3')).
  cbn [w_trace]. subst s2.
  eexists. split; [reflexivity|].
  cbn [st_knobs st_cluster st_transports st_stores set_stores set_transports].
  split; [done|]. split; [|split; [done|split; [|split]]].
  2:{ intros i Hi. destruct (Hnodes1 i Hi) as (nd & Hnd & Hnew).
      rewrite Nat.add_0_l in Hnd. exists nd. split; [done|].
      intros s' Hs'. specialize (Hnew s' Hs'). by rewrite Nat.add_0_l in Hnew. }
  2:{ intros z [Hz|Hz].
      - rewrite Hbelow1 by lia. done.
      - rewrite Habove1 by lia. done. }
  2:{ intros l Hl. destruct (Hold1 l Hl) as [Ht Hs].
      rewrite Hf2, Hf3.
      - done.
      - unfold stores. rewrite list_elem_of_fmap. intros (k & -> & _). lia.
      - intros (k & _ & ->)%Hin. lia. }
  intros i Hi. destruct (Hnew1 i Hi) as (Ht1 & Hst1 & nd & Hnd & Hp & Htr).
  rewrite Nat.add_0_l in Hnd.
  assert (addr_at h2 (base + 4 * i)%nat = Some (Itoa (Z.of_nat i))) as Hai.
  { rewrite Ha2. unfold addr_at. by rewrite Ht1. }
  unfold addr_at in Hai.
  destruct (h2 !! (base + 4 * i)%nat) as [t|] eqn:Ht; [|done].
  injection Hai as Hai.
  exists nd, t. split_and!; [done..| |].
  - intros j Hj Hji.
    destruct (Hc2 i j (base + 4 * i)%nat (base + 4 * j)%nat)
      as (a & Haj & t' & Ht' & Hreg); [by auto..|].
    rewrite Ha2 in Haj. unfold addr_at in Haj.
    destruct (Hnew1 j Hj) as (Htj & _). rewrite Htj in Haj.
    injection Haj as <-. cbn [LocalAddr localAddr] in Hreg.
    congruence.
  - rewrite Hp. by apply (Hs3 i), Hss.
Qed.

Lemma Cluster_wires fsms knobs w :
  let n := length fsms in
  let base := st_next (w_state w) in
  ∃ s,
    Cluster fsms knobs w
    = bind (for_range knobs (λ _ knob, call_init knob))
        (λ _, bind (start_rafts 0 fsms)
                (λ rafts, ret (rafts,
                   Shutdown rafts;;
                   for_range knobs (λ _ knob, call_cleanup knob))))
        (mkWorld s (w_trace w))
    ∧ st_knobs s = st_knobs (w_state w)
    ∧ wired n base s.
Proof.
  intros n base.
  destruct (Cluster_wires_full fsms knobs w) as (s & E & Hk & Hw & _).
  by exists s.
Qed.

(** *** The knobs *)

Lemma call_init_run (k : Knob) w o s' :
  init k (w_state w) = (o, s') →
  call_init k w = (o, mkWorld s' (w_trace w ++ [EvKnobInit (knob_id k)])).
Proof.
  intros E. unfold call_init. rewrite mbind_unfold.
  rewrite (bind_Done _ _ _ _ _ (emit_run _ w)).
  by apply (on_state_run _ (logged w _)).
Qed.

Lemma call_cleanup_run (k : Knob) w o s' :
  cleanup k (w_state w) = (o, s') →
  call_cleanup k w = (o, mkWorld s' (w_trace w ++ [EvKnobCleanup (knob_id k)])).
Proof.
  intros E. unfold call_cleanup. rewrite mbind_unfold.
  rewrite (bind_Done _ _ _ _ _ (emit_run _ w)).
  by apply (on_state_run _ (logged w _)).
Qed.

(** When every [init] returns, the loop over the knobs calls them all,
    in the order of the slice, each on the state the one before it
    left. *)
Lemma inits_run knobs : ∀ (i : nat) w,
  Forall init_keeps_nodes knobs →
  for_range_from i knobs (λ _ knob, call_init knob) w
  = (Done tt, mkWorld (after_inits knobs (w_state w))
                (w_trace w ++ ((EvKnobInit ∘ knob_id) <$> knobs)))
  ∧ ∀ z, is_Some (nodes (st_cluster (w_state w)) !! z) →
         is_Some (nodes (st_cluster (after_inits knobs (w_state w))) !! z).
Proof.
  induction knobs as [|k knobs IH]; intros i w Hk; simpl.
  - split; [|done]. unfold ret. f_equal. destruct w. simpl.
    by rewrite app_nil_r.
  - apply Forall_cons in Hk as [Hk Hknobs].
    destruct (Hk (w_state w)) as (s' & E & Hkeep).
    rewrite (bind_Done _ _ _ _ _ (call_init_run k w _ _ E)).
    destruct (IH (S i) (mkWorld s' (w_trace w ++ [EvKnobInit (knob_id k)]))
                Hknobs) as [E' Hkeep'].
    rewrite E. cbn [w_state w_trace snd] in *. rewrite E'. split.
    + by rewrite <- app_assoc.
    + intros z Hz. by apply Hkeep', Hkeep.
Qed.

(** When every [cleanup] returns, the loop calls them all, in the order
    of the slice. *)
Lemma cleanups_run knobs : ∀ (i : nat) w,
  Forall cleanup_returns knobs →
  ∃ s', for_range_from i knobs (λ _ knob, call_cleanup knob) w
        = (Done tt, mkWorld s'
                      (w_trace w ++ ((EvKnobCleanup ∘ knob_id) <$> knobs)))
        ∧ s' = after_cleanups knobs (w_state w).
Proof.
  induction knobs as [|k knobs IH]; intros i w Hk; simpl.
  - exists (w_state w). split; [|done]. unfold ret. f_equal. destruct w.
    simpl. by rewrite app_nil_r.
  - apply Forall_cons in Hk as [Hk Hknobs].
    destruct (Hk (w_state w)) as (s' & E).
    rewrite (bind_Done _ _ _ _ _ (call_cleanup_run k w _ _ E)).
    destruct (IH (S i) (mkWorld s' (w_trace w ++ [EvKnobCleanup (knob_id k)]))
                Hknobs) as (s'' & E' & Hs).
    exists s''. rewrite E'. cbn [w_trace w_state] in *. rewrite E.
    split; [by rewrite <- app_assoc|done].
Qed.

(** *** The engines *)

Lemma newRaft_run fsm (nd : node) w :
  NewRaft_succeeds →
  let r := mkRaft (st_next (w_state w)) fsm nd in
  newRaft fsm (Some nd) w
  = (Done (inl r), mkWorld (set_next S (w_state w)) (w_trace w ++ [EvNewRaft r])).
Proof.
  intros Hok. destruct nd as [c lg st sn ps tr]. unfold newRaft, NewRaft.
  cbn [node.Config node.Logs node.Stable node.Snapshots node.Peers
       node.Transport].
  rewrite mbind_unfold.
  rewrite (bind_Done _ _ _ _ _ (on_state_run get w _ _ eq_refl)).
  destruct w as [s tr0]. cbn [w_state w_trace]. rewrite Hok.
  reflexivity.
Qed.

(** With a library that creates every engine, the last loop of
    [Cluster] creates one engine for each state machine, from the node
    the cluster holds at the same index. *)
Lemma start_rafts_run fsms : ∀ (i : nat) w,
  NewRaft_succeeds →
  (∀ k : nat, (k < length fsms)%nat →
     is_Some (nodes (st_cluster (w_state w)) !! Z.of_nat (i + k))) →
  ∃ rafts,
    start_rafts i fsms w
    = (Done rafts,
       mkWorld (set_next (λ x, length fsms + x)%nat (w_state w))
         (w_trace w ++ (EvNewRaft <$> rafts)))
    ∧ length rafts = length fsms
    ∧ ∀ (k : nat) fsm, fsms !! k = Some fsm →
        ∃ nd, nodes (st_cluster (w_state w)) !! Z.of_nat (i + k) = Some nd
              ∧ rafts !! k
                = Some (mkRaft (st_next (w_state w) + k) fsm nd).
Proof.
  induction fsms as [|fsm fsms IH]; intros i w Hok Hnodes.
  - exists []. simpl. split_and!; [|done|done].
    unfold ret. f_equal. destruct w as [[] ?]. unfold set_next. simpl.
    by rewrite app_nil_r.
  - destruct (Hnodes 0%nat) as [nd Hnd]; [simpl; lia|].
    rewrite Nat.add_0_r in Hnd.
    simpl start_rafts. rewrite mbind_unfold.
    rewrite (bind_Done _ _ _ _ _ (on_state_run get w _ _ eq_refl)).
    replace (mkWorld (w_state w) (w_trace w)) with w by by destruct w.
    rewrite Hnd. rewrite mbind_unfold.
    rewrite (bind_Done _ _ _ _ _ (newRaft_run fsm nd w Hok)).
    set (r := mkRaft (st_next (w_state w)) fsm nd).
    destruct (IH (S i) (mkWorld (set_next S (w_state w))
                          (w_trace w ++ [EvNewRaft r])) Hok)
      as (rafts & E & Hlen & Hrafts).
    { intros k Hk. cbn [w_state st_cluster set_next].
      replace (S i + k)%nat with (i + S k)%nat by lia.
      apply Hnodes. simpl. lia. }
    rewrite mbind_unfold. rewrite (bind_Done _ _ _ _ _ E).
    exists (r :: rafts). split_and!.
    + unfold ret. f_equal. unfold set_next.
      cbn [w_state w_trace st_transports st_stores st_next st_cluster
           st_knobs fmap list_fmap].
      f_equal; [f_equal; simpl; lia|by rewrite <- app_assoc].
    + simpl. by rewrite Hlen.
    + intros [|k] fsm' Hk; simpl in Hk.
      * injection Hk as <-. exists nd. rewrite !Nat.add_0_r. done.
      * destruct (Hrafts k fsm' Hk) as (nd' & Hnd' & Hr).
        cbn [w_state st_cluster st_next set_next] in Hnd', Hr.
        exists nd'. replace (i + S k)%nat with (S i + k)%nat by lia.
        split; [done|]. simpl.
        by replace (st_next (w_state w) + S k)%nat
          with (S (st_next (w_state w)) + k)%nat by lia.
Qed.

Lemma started_app (e1 e2 : list (@Event FSM)) :
  started (e1 ++ e2) = started e1 ++ started e2.
Proof. unfold started. apply omap_app. Qed.

Lemma started_inits knobs :
  started (FSM:=FSM) ((EvKnobInit ∘ knob_id) <$> knobs) = [].
Proof. induction knobs as [|k knobs IH]; [done|]. simpl. exact IH. Qed.

Lemma started_NewRaft (rafts : list (@Raft FSM)) :
  started (EvNewRaft <$> rafts) = rafts.
Proof.
  induction rafts as [|r rafts IH]; [done|].
  change (r :: started (EvNewRaft <$> rafts) = r :: rafts). by rewrite IH.
Qed.

Lemma wired_set_next n base f s : wired n base s → wired n base (set_next f s).
Proof. done. Qed.

(** *** The whole of [Cluster] when nothing fails *)

Lemma Cluster_returns fsms knobs w :
  Forall init_keeps_nodes knobs → NewRaft_succeeds →
  ∃ s1 rafts,
    let s2 := after_inits knobs s1 in
    Cluster fsms knobs w
    = (Done (rafts,
             Shutdown rafts;;
             for_range knobs (λ _ knob, call_cleanup knob)),
       mkWorld (set_next (λ x, length fsms + x)%nat s2)
         (w_trace w ++ ((EvKnobInit ∘ knob_id) <$> knobs)
                    ++ (EvNewRaft <$> rafts)))
    ∧ wired (length fsms) (st_next (w_state w)) s1
    ∧ length rafts = length fsms
    ∧ ∀ (k : nat) fsm, fsms !! k = Some fsm →
        ∃ nd, nodes (st_cluster s2) !! Z.of_nat k = Some nd
              ∧ rafts !! k = Some (mkRaft (st_next s2 + k) fsm nd).
Proof.
  intros Hknobs Hok.
  destruct (Cluster_wires fsms knobs w) as (s1 & -> & _ & Hwired).
  destruct (inits_run knobs 0 (mkWorld s1 (w_trace w)) Hknobs) as [E Hkeep].
  cbn [w_state w_trace] in E, Hkeep.
  unfold for_range. rewrite (bind_Done _ _ _ _ _ E).
  destruct (start_rafts_run fsms 0
              (mkWorld (after_inits knobs s1)
                 (w_trace w ++ ((EvKnobInit ∘ knob_id) <$> knobs))) Hok)
    as (rafts & E' & Hlen & Hrafts).
  { intros k Hk. cbn [w_state]. apply Hkeep.
    destruct (Hwired k Hk) as (nd & _ & Hnd & _). by exists nd. }
  rewrite (bind_Done _ _ _ _ _ E'). cbn [w_state w_trace] in *.
  exists s1, rafts. split_and!; [|done|done|done].
  unfold ret. by rewrite <- app_assoc.
Qed.

(** *** Any run of the knobs and of the engine loop *)

Lemma inits_any knobs : ∀ (i : nat) w,
  ∃ o w' (k : nat),
    for_range_from i knobs (λ _ knob, call_init knob) w = (o, w')
    ∧ w_trace w' = w_trace w ++ ((EvKnobInit ∘ knob_id) <$> take k knobs)
    ∧ (o = Done tt → k = length knobs)
    ∧ w_state w' = after_inits (take k knobs) (w_state w).
Proof.
  induction knobs as [|kn knobs IH]; intros i w; simpl.
  - exists (Done tt), w, 0%nat. by rewrite app_nil_r.
  - destruct (init kn (w_state w)) as [o s'] eqn:E.
    pose proof (call_init_run kn w _ _ E) as E1.
    destruct o as [[]|msg|msg].
    + rewrite (bind_Done _ _ _ _ _ E1).
      destruct (IH (S i) (mkWorld s' (w_trace w ++ [EvKnobInit (knob_id kn)])))
        as (o & w' & k & -> & Ht & Hk & Hs).
      exists o, w', (S k). split_and!; [done| |by intros ->%Hk|].
      * rewrite Ht. cbn [w_trace]. by rewrite <- app_assoc.
      * rewrite Hs. cbn [w_state take after_inits]. by rewrite E.
    + rewrite (bind_Fatal _ _ _ _ _ E1). eexists _, _, 1%nat.
      cbn [take after_inits w_state]. rewrite take_0, E. by split_and!.
    + rewrite (bind_Panic _ _ _ _ _ E1). eexists _, _, 1%nat.
      cbn [take after_inits w_state]. rewrite take_0, E. by split_and!.
Qed.

Lemma set_next_0 (s : @State KnobMem) : set_next (λ x, 0 + x)%nat s = s.
Proof. by destruct s. Qed.

Lemma set_next_add (a b : nat) (s : @State KnobMem) :
  set_next (λ x, b + x)%nat (set_next (λ x, a + x)%nat s)
  = set_next (λ x, (a + b) + x)%nat s.
Proof. unfold set_next. simpl. f_equal. lia. Qed.

Lemma newRaft_any fsm (nd : option node) w :
  ∃ o w' events,
    newRaft fsm nd w = (o, w')
    ∧ w_trace w' = w_trace w ++ events
    ∧ Forall (λ e, is_engine_event e = true) events
    ∧ w_state w'
      = set_next (λ x, length (started events) + x)%nat (w_state w).
Proof.
  destruct nd as [[c lg st sn ps tr]|]; last first.
  { exists (Panic nil_dereference), w, []. rewrite app_nil_r.
    by rewrite set_next_0. }
  unfold newRaft, NewRaft.
  cbn [node.Config node.Logs node.Stable node.Snapshots node.Peers
       node.Transport].
  rewrite mbind_unfold.
  rewrite (bind_Done _ _ _ _ _ (on_state_run get w _ _ eq_refl)).
  destruct w as [s tr0]. cbn [w_state w_trace].
  destruct (NewRaft_error fsm _ s) as [err|]; eexists _, _, [_];
    (split_and!; [reflexivity|reflexivity|by repeat constructor|]).
  - by destruct s.
  - reflexivity.
Qed.

Lemma start_rafts_any fsms : ∀ (i : nat) w,
  ∃ o w' events,
    start_rafts i fsms w = (o, w')
    ∧ w_trace w' = w_trace w ++ events
    ∧ Forall (λ e, is_engine_event e = true) events
    ∧ w_state w'
      = set_next (λ x, length (started events) + x)%nat (w_state w).
Proof.
  induction fsms as [|fsm fsms IH]; intros i w.
  - exists (Done []), w, []. rewrite app_nil_r. by rewrite set_next_0.
  - simpl start_rafts. rewrite mbind_unfold.
    rewrite (bind_Done _ _ _ _ _ (on_state_run get w _ _ eq_refl)).
    replace (mkWorld (w_state w) (w_trace w)) with w by by destruct w.
    destruct (newRaft_any fsm (nodes (st_cluster (w_state w)) !! Z.of_nat i) w)
      as (o & w1 & ev1 & E1 & Ht1 & Hev1 & Hs1).
    rewrite mbind_unfold. destruct o as [[r|err]|msg|msg].
    + rewrite (bind_Done _ _ _ _ _ E1).
      destruct (IH (S i) w1) as (o & w2 & ev2 & E2 & Ht2 & Hev2 & Hs2).
      rewrite mbind_unfold. unfold bind. rewrite E2.
      exists (match o with
              | Done rafts => Done (r :: rafts)
              | Fatal msg => Fatal msg
              | Panic msg => Panic msg
              end), w2, (ev1 ++ ev2).
      split_and!.
      * by destruct o.
      * by rewrite Ht2, Ht1, <- app_assoc.
      * by apply Forall_app.
      * rewrite Hs2, Hs1, set_next_add. unfold started.
        by rewrite omap_app, length_app.
    + rewrite (bind_Done _ _ _ _ _ E1). by eexists _, w1, ev1.
    + rewrite (bind_Fatal _ _ _ _ _ E1). by eexists _, w1, ev1.
    + rewrite (bind_Panic _ _ _ _ _ E1). by eexists _, w1, ev1.
Qed.

Lemma cleanups_any knobs : ∀ (i : nat) w,
  ∃ o w' (k : nat),
    for_range_from i knobs (λ _ knob, call_cleanup knob) w = (o, w')
    ∧ w_trace w' = w_trace w ++ ((EvKnobCleanup ∘ knob_id) <$> take k knobs)
    ∧ (o = Done tt → k = length knobs)
    ∧ w_state w' = after_cleanups (take k knobs) (w_state w).
Proof.
  induction knobs as [|kn knobs IH]; intros i w; simpl.
  - exists (Done tt), w, 0%nat. by rewrite app_nil_r.
  - destruct (cleanup kn (w_state w)) as [o s'] eqn:E.
    pose proof (call_cleanup_run kn w _ _ E) as E1.
    destruct o as [[]|msg|msg].
    + rewrite (bind_Done _ _ _ _ _ E1).
      destruct (IH (S i)
                  (mkWorld s' (w_trace w ++ [EvKnobCleanup (knob_id kn)])))
        as (o & w' & k & -> & Ht & Hk & Hs).
      exists o, w', (S k). split_and!; [done| |by intros ->%Hk|].
      * rewrite Ht. cbn [w_trace]. by rewrite <- app_assoc.
      * rewrite Hs. cbn [w_state take after_cleanups]. by rewrite E.
    + rewrite (bind_Fatal _ _ _ _ _ E1). eexists _, _, 1%nat.
      cbn [take after_cleanups w_state]. rewrite take_0, E. by split_and!.
    + rewrite (bind_Panic _ _ _ _ _ E1). eexists _, _, 1%nat.
      cbn [take after_cleanups w_state]. rewrite take_0, E. by split_and!.
Qed.

Lemma Shutdown_ok (rafts : list (@Raft FSM)) w :
  Forall (λ r, Shutdown_error r = None) rafts →
  Shutdown rafts w
  = (Done tt, closing rafts (logged w ((EvShutdown <$> rafts)
                                        ++ (EvFutureError <$> rafts)))).
Proof.
  intros Hok. unfold Shutdown, for_range. rewrite mbind_unfold.
  rewrite (bind_Done _ _ _ _ _ (shutdown_each_run rafts w)).
  rewrite check_futures_ok by done. by rewrite logged_logged.
Qed.

(** The node-subset knob leaves every node in the cluster. *)
Lemma Servers_keeps_nodes (id : nat) (indexes : list Z) :
  init_keeps_nodes (Servers (KnobMem:=KnobMem) id indexes).
Proof.
  intros s. eexists. split; [reflexivity|]. cbn [snd].
  enough (st_cluster (map_fold (restrict_node indexes s) s
                        (nodes (st_cluster s))) = st_cluster s) as -> by done.
  apply (map_fold_weak_ind (λ r _, st_cluster r = st_cluster s)); [done|].
  intros i nd m r _ Hr. unfold restrict_node.
  by destruct (node.Transport nd).
Qed.

Lemma Servers_cleanup_returns (id : nat) (indexes : list Z) :
  cleanup_returns (Servers (KnobMem:=KnobMem) id indexes).
Proof. intros s. by exists s. Qed.

(** *** What a run of [Cluster] that returns has done *)

Lemma newRaft_cases fsm (nd : option node) w :
  (nd = None ∧ newRaft fsm nd w = (Panic nil_dereference, w))
  ∨ (∃ n err, nd = Some n
              ∧ newRaft fsm nd w
                = (Done (inr err), logged w [EvNewRaftFailed fsm n]))
  ∨ (∃ n, nd = Some n
          ∧ newRaft fsm nd w
            = (Done (inl (mkRaft (st_next (w_state w)) fsm n)),
               mkWorld (set_next S (w_state w))
                 (w_trace w ++ [EvNewRaft (mkRaft (st_next (w_state w)) fsm n)]))).
Proof.
  destruct nd as [[c lg st sn ps tr]|]; [right|by left].
  unfold newRaft, NewRaft.
  cbn [node.Config node.Logs node.Stable node.Snapshots node.Peers
       node.Transport].
  rewrite mbind_unfold.
  rewrite (bind_Done _ _ _ _ _ (on_state_run get w _ _ eq_refl)).
  destruct w as [s tr0]. cbn [w_state w_trace].
  destruct (NewRaft_error fsm _ s) as [err|].
  - left. by eexists _, err.
  - right. by eexists.
Qed.

(** Whenever the last loop of [Cluster] returns, it has created one
    engine for each state machine, from the node the cluster holds at
    the same index, and nothing else has changed in the cluster. *)
Lemma start_rafts_Done fsms : ∀ (i : nat) w rafts w',
  start_rafts i fsms w = (Done rafts, w') →
  w_trace w' = w_trace w ++ (EvNewRaft <$> rafts)
  ∧ st_cluster (w_state w') = st_cluster (w_state w)
  ∧ length rafts = length fsms
  ∧ ∀ (k : nat) fsm, fsms !! k = Some fsm →
      ∃ nd, nodes (st_cluster (w_state w)) !! Z.of_nat (i + k) = Some nd
            ∧ rafts !! k = Some (mkRaft (st_next (w_state w) + k) fsm nd).
Proof.
  induction fsms as [|fsm fsms IH]; intros i w rafts w' E.
  - injection E as <- <-. by rewrite app_nil_r.
  - simpl start_rafts in E. rewrite mbind_unfold in E.
    rewrite (bind_Done _ _ _ _ _ (on_state_run get w _ _ eq_refl)) in E.
    replace (mkWorld (w_state w) (w_trace w)) with w in E by by destruct w.
    rewrite mbind_unfold in E.
    destruct (newRaft_cases fsm (nodes (st_cluster (w_state w)) !! Z.of_nat i) w)
      as [[_ E1]|[(n & err & _ & E1)|(n & Hn & E1)]].
    + by rewrite (bind_Panic _ _ _ _ _ E1) in E.
    + by rewrite (bind_Done _ _ _ _ _ E1) in E.
    + rewrite (bind_Done _ _ _ _ _ E1) in E. rewrite mbind_unfold in E.
      unfold bind in E.
      destruct (start_rafts (S i) fsms _) as [[rafts'|msg|msg] w2] eqn:E2;
        [|done..].
      injection E as <- <-.
      destruct (IH _ _ _ _ E2) as (Ht & Hc & Hlen & Hrafts).
      cbn [w_state w_trace st_cluster st_next set_next] in Ht, Hc, Hrafts.
      split_and!.
      * rewrite Ht. by rewrite <- app_assoc.
      * done.
      * simpl. by rewrite Hlen.
      * intros [|k] fsm' Hk; simpl in Hk.
        -- injection Hk as <-. exists n. rewrite !Nat.add_0_r. done.
        -- destruct (Hrafts k fsm' Hk) as (nd' & Hnd' & Hr).
           exists nd'. replace (i + S k)%nat with (S i + k)%nat by lia.
           split; [done|]. simpl.
           by replace (st_next (w_state w) + S k)%nat
             with (S (st_next (w_state w)) + k)%nat by lia.
Qed.

(** Whenever [Cluster] returns, whatever the knobs and the library: it
    has called every [init] and then created one engine for each state
    machine, in order, and these engines are the handles it returns. *)
Lemma Cluster_Done fsms knobs w rafts cleanup w' :
  Cluster fsms knobs w = (Done (rafts, cleanup), w') →
  w_trace w' = w_trace w ++ ((EvKnobInit ∘ knob_id) <$> knobs)
                 ++ (EvNewRaft <$> rafts)
  ∧ cleanup = (Shutdown rafts;; for_range knobs (λ _ knob, call_cleanup knob))
  ∧ length rafts = length fsms
  ∧ ∃ base : nat,
      ∀ (k : nat) fsm, fsms !! k = Some fsm →
        ∃ nd, nodes (st_cluster (w_state w')) !! Z.of_nat k = Some nd
              ∧ rafts !! k = Some (mkRaft (base + k) fsm nd).
Proof.
  destruct (Cluster_wires fsms knobs w) as (s1 & -> & _ & _).
  destruct (inits_any knobs 0 (mkWorld s1 (w_trace w)))
    as (o & w1 & k & E & Ht & Hk & _). cbn [w_trace] in Ht.
  unfold for_range. unfold bind at 1. rewrite E.
  destruct o as [[]|msg|msg]; [|done..].
  rewrite (Hk eq_refl), firstn_all in Ht.
  unfold bind.
  destruct (start_rafts 0 fsms w1) as [[rafts'|msg|msg] w2] eqn:E2; [|done..].
  intros [= <- <- <-].
  destruct (start_rafts_Done _ _ _ _ _ E2) as (Ht2 & Hc & Hlen & Hrafts).
  split_and!; [|done|done|].
  - by rewrite Ht2, Ht, <- app_assoc.
  - exists (st_next (w_state w1)). intros i fsm Hi. rewrite Hc.
    by apply (Hrafts i fsm).
Qed.

(** Whenever [Cluster] returns, every [init] has returned, each run on
    the memory the one before it left, the first on the wired cluster;
    the engines were created on the memory the last one left, engine
    i from the node at index i, and each took one new reference. *)
Lemma Cluster_Done_state fsms knobs w rafts cleanup w' :
  Cluster fsms knobs w = (Done (rafts, cleanup), w') →
  ∃ s1,
    wired (length fsms) (st_next (w_state w)) s1
    ∧ st_knobs s1 = st_knobs (w_state w)
    ∧ w_state w'
      = set_next (λ x, length fsms + x)%nat (after_inits knobs s1)
    ∧ ∀ (i : nat) fsm, fsms !! i = Some fsm →
        ∃ nd, nodes (st_cluster (after_inits knobs s1)) !! Z.of_nat i = Some nd
              ∧ rafts !! i
                = Some (mkRaft (st_next (after_inits knobs s1) + i) fsm nd).
Proof.
  destruct (Cluster_wires fsms knobs w) as (s1 & -> & Hkn & Hwired).
  destruct (inits_any knobs 0 (mkWorld s1 (w_trace w)))
    as (o & w1 & k & E & Ht & Hk & Hs). cbn [w_trace w_state] in Ht, Hs.
  unfold for_range. unfold bind at 1. rewrite E.
  destruct o as [[]|msg|msg]; [|done..].
  rewrite (Hk eq_refl), firstn_all in Hs.
  unfold bind.
  destruct (start_rafts 0 fsms w1) as [[rafts'|msg|msg] w2] eqn:E2; [|done..].
  intros [= <- <- <-].
  destruct (start_rafts_Done _ _ _ _ _ E2) as (Ht2 & Hc & Hlen & Hrafts).
  destruct (start_rafts_any fsms 0 w1) as (o & w2' & events & E3 & Ht3 & _ & Hs3).
  rewrite E2 in E3. injection E3 as <- <-.
  rewrite Ht2 in Ht3. apply app_inv_head in Ht3 as <-.
  rewrite started_NewRaft, Hlen, Hs in Hs3.
  exists s1. split_and!; [done..|].
  intros i fsm Hi. destruct (Hrafts i fsm Hi) as (nd & Hnd & Hr).
  rewrite Nat.add_0_l, Hs in Hnd. rewrite Hs in Hr. by exists nd.
Qed.

(** *** What [Cluster] guarantees *)

(** C1, as amended.  Whatever knobs are supplied, a node-subset knob
    among them, [Cluster] creates one engine for each state machine:
    whenever it returns, the engines it has started are the handles it
    returns, N distinct engines, one for every index below N and none
    left out; and it does return when the knobs' [init] calls return
    leaving the nodes in the cluster and the library creates every
    engine. *)
Theorem Cluster_starts_every_node fsms knobs w :
  (∀ rafts cleanup w',
     Cluster fsms knobs w = (Done (rafts, cleanup), w') →
     ∃ events,
       w_trace w' = w_trace w ++ events
       ∧ started events = rafts
       ∧ length (started events) = length fsms
       ∧ NoDup (raft_id <$> started events)
       ∧ ∀ (i : nat) fsm, fsms !! i = Some fsm →
           ∃ r, started events !! i = Some r ∧ raft_fsm r = fsm)
  ∧ (Forall init_keeps_nodes knobs → NewRaft_succeeds →
     ∃ rafts cleanup w', Cluster fsms knobs w = (Done (rafts, cleanup), w')).
Proof.
  split.
  - intros rafts cleanup w' E.
    destruct (Cluster_Done _ _ _ _ _ _ E) as (Ht & _ & Hlen & base & Hrafts).
    eexists. split; [exact Ht|].
    rewrite started_app, started_inits, started_NewRaft. simpl.
    split_and!; [done|done| |].
    + apply NoDup_alt. intros i j x.
      rewrite !list_lookup_fmap. intros Hi Hj.
      destruct (rafts !! i) as [ri|] eqn:Hri; [|done].
      destruct (rafts !! j) as [rj|] eqn:Hrj; [|done].
      pose proof (lookup_lt_Some _ _ _ Hri) as Hlti.
      pose proof (lookup_lt_Some _ _ _ Hrj) as Hltj.
      rewrite Hlen in Hlti, Hltj.
      destruct (lookup_lt_is_Some_2 fsms i Hlti) as [fi Hfi].
      destruct (lookup_lt_is_Some_2 fsms j Hltj) as [fj Hfj].
      destruct (Hrafts i fi Hfi) as (ndi & _ & Hi').
      destruct (Hrafts j fj Hfj) as (ndj & _ & Hj').
      simplify_eq/=. lia.
    + intros i fsm Hi. destruct (Hrafts i fsm Hi) as (nd & _ & Hr).
      eexists. by split.
  - intros Hknobs Hok.
    destruct (Cluster_returns fsms knobs w Hknobs Hok) as (s1 & rafts & E & _).
    by eexists _, _, _.
Qed.

(** Engines whose identities are consecutive references are distinct. *)
Lemma consecutive_ids_NoDup (rafts : list (@Raft FSM)) (base : nat) :
  (∀ (i : nat) r, rafts !! i = Some r → raft_id r = (base + i)%nat) →
  NoDup (raft_id <$> rafts).
Proof.
  intros Hid. apply NoDup_alt. intros i j x.
  rewrite !list_lookup_fmap. intros Hi Hj.
  destruct (rafts !! i) as [ri|] eqn:Hri; [|done].
  destruct (rafts !! j) as [rj|] eqn:Hrj; [|done].
  pose proof (Hid i ri Hri). pose proof (Hid j rj Hrj).
  simplify_eq/=. lia.
Qed.

(** C2. For every list of N state machines and every sequence of
    knobs, whenever [Cluster] returns it returns a slice of exactly N
    engine handles together with the cleanup closure, and the handle at
    index i is the engine created from [fsms[i]] and from the dependency
    set the cluster holds for node i once the knobs have run.  The
    handles are the engines the library created during the call, in
    the order of creation, after the knobs' [init] calls; they are N
    distinct engines, each of which took a new reference.  It does
    return when the knobs' [init] calls return leaving the nodes in the
    cluster and the library creates every engine; without knobs the
    dependency set of node i is then the one built for the identity i
    and wired to the other nodes. *)
Theorem Cluster_handles_aligned fsms knobs w :
  (∀ rafts cleanup w',
     Cluster fsms knobs w = (Done (rafts, cleanup), w') →
     length rafts = length fsms
     ∧ (∀ (i : nat) fsm, fsms !! i = Some fsm →
          ∃ r nd, rafts !! i = Some r
                  ∧ raft_fsm r = fsm
                  ∧ nodes (st_cluster (w_state w')) !! Z.of_nat i = Some nd
                  ∧ raft_deps r = nd)
     ∧ cleanup = (Shutdown rafts;;
                  for_range knobs (λ _ knob, call_cleanup knob))
     ∧ (∃ events,
          w_trace w' = w_trace w ++ events
          ∧ events = ((EvKnobInit ∘ knob_id) <$> knobs) ++ (EvNewRaft <$> rafts)
          ∧ started events = rafts)
     ∧ NoDup (raft_id <$> rafts)
     ∧ ∃ base : nat,
         st_next (w_state w') = (length fsms + base)%nat
         ∧ ∀ (i : nat) r, rafts !! i = Some r → raft_id r = (base + i)%nat)
  ∧ (Forall init_keeps_nodes knobs → NewRaft_succeeds →
     ∃ rafts cleanup w',
       Cluster fsms knobs w = (Done (rafts, cleanup), w')
       ∧ (knobs = [] → wired (length fsms) (st_next (w_state w)) (w_state w'))).
Proof.
  split.
  - intros rafts cleanup w' E.
    destruct (Cluster_Done _ _ _ _ _ _ E) as (Ht & Hc & Hlen & base & Hrafts).
    destruct (Cluster_Done_state _ _ _ _ _ _ E) as (s1 & _ & _ & Hs & Hids).
    assert (∀ (i : nat) r, rafts !! i = Some r →
              raft_id r = (st_next (after_inits knobs s1) + i)%nat) as Hid.
    { intros i r Hi. pose proof (lookup_lt_Some _ _ _ Hi) as Hlt.
      rewrite Hlen in Hlt.
      destruct (lookup_lt_is_Some_2 fsms i Hlt) as [fsm Hfsm].
      destruct (Hids i fsm Hfsm) as (nd & _ & Hr).
      rewrite Hr in Hi. by injection Hi as <-. }
    split_and!; [done| |done| | |].
    + intros i fsm Hi. destruct (Hrafts i fsm Hi) as (nd & Hnd & Hr).
      eexists _, nd. by split_and!.
    + eexists. split; [exact Ht|]. split; [done|].
      by rewrite started_app, started_inits, started_NewRaft.
    + by apply (consecutive_ids_NoDup rafts (st_next (after_inits knobs s1))).
    + exists (st_next (after_inits knobs s1)). split; [by rewrite Hs|done].
  - intros Hknobs Hok.
    destruct (Cluster_returns fsms knobs w Hknobs Hok)
      as (s1 & rafts & E & Hwired & _).
    cbn zeta in E. eexists rafts, _, _. split; [exact E|]. cbn [w_state].
    intros ->. by apply wired_set_next.
Qed.

(** What a computation leaves is not changed by what is done with its
    result once it has returned. *)
Lemma bind_ret_snd {A B} (m : M World A) (f : A → B) w :
  (bind m (λ a, ret (f a)) w).2 = (m w).2.
Proof. unfold bind. by destruct (m w) as [[a|msg|msg] w']. Qed.

(** C3. [Cluster] calls the knobs on the wired cluster.  In every run,
    the calls to the knobs' [init] are made in the order the knobs were
    supplied, each [init] is run on the memory the one before it left,
    and no attempt to create an engine is made before all of them have
    been called and have returned; the memory [Cluster] leaves is the
    one the [init] calls made have left, with one new reference for
    each engine created.  In every run of the cleanup closure [Cluster]
    returned, the shutdown of every returned engine is requested first,
    then the futures are checked, and a knob's [cleanup] is called only
    after all of them were checked; the [cleanup] calls are made in the
    order supplied, each run on the memory the one before it left, the
    first on the memory the shutdown left.  When nothing fails, every
    [init] is run before the engines are created, and the cleanup
    closure shuts all the engines down and then runs every [cleanup]
    in that same order. *)
Theorem Cluster_knob_order fsms knobs w :
  ∃ s1,
    wired (length fsms) (st_next (w_state w)) s1
    ∧ st_knobs s1 = st_knobs (w_state w)
    ∧ (∃ (k : nat) events,
         w_trace (Cluster fsms knobs w).2
         = w_trace w ++ ((EvKnobInit ∘ knob_id) <$> take k knobs) ++ events
         ∧ Forall (λ e, is_engine_event e = true) events
         ∧ (events ≠ [] → k = length knobs)
         ∧ w_state (Cluster fsms knobs w).2
           = set_next (λ x, length (started events) + x)%nat
               (after_inits (take k knobs) s1))
    ∧ (∀ rafts cleanup w1,
         Cluster fsms knobs w = (Done (rafts, cleanup), w1) →
         ∀ w2, ∃ checked (k : nat),
           w_trace (cleanup w2).2
           = w_trace w2 ++ (EvShutdown <$> rafts)
               ++ (EvFutureError <$> checked)
               ++ ((EvKnobCleanup ∘ knob_id) <$> take k knobs)
           ∧ (k ≠ 0%nat → checked = rafts)
           ∧ w_state (cleanup w2).2
             = after_cleanups (take k knobs) (closed checked (w_state w2)))
    ∧ (Forall init_keeps_nodes knobs → Forall cleanup_returns knobs →
       NewRaft_succeeds → Shutdown_succeeds →
       ∃ rafts cleanup w1,
         Cluster fsms knobs w = (Done (rafts, cleanup), w1)
         ∧ length rafts = length fsms
         ∧ w_trace w1
           = w_trace w ++ ((EvKnobInit ∘ knob_id) <$> knobs)
               ++ (EvNewRaft <$> rafts)
         ∧ w_state w1
           = set_next (λ x, length fsms + x)%nat (after_inits knobs s1)
         ∧ ∀ w2,
             cleanup w2
             = (Done tt,
                mkWorld (after_cleanups knobs (closed rafts (w_state w2)))
                  (w_trace w2 ++ (EvShutdown <$> rafts)
                     ++ (EvFutureError <$> rafts)
                     ++ ((EvKnobCleanup ∘ knob_id) <$> knobs)))).
Proof.
  destruct (Cluster_wires fsms knobs w) as (s1 & EC & Hkn & Hwired).
  exists s1. split_and!; [done|done| | |].
  - rewrite EC.
    destruct (inits_any knobs 0 (mkWorld s1 (w_trace w)))
      as (o & w1 & k & E & Ht & Hk & Hs). cbn [w_trace w_state] in Ht, Hs.
    unfold for_range. destruct o as [[]|msg|msg].
    + rewrite (bind_Done _ _ _ _ _ E). rewrite bind_ret_snd.
      destruct (start_rafts_any fsms 0 w1)
        as (o & w2 & events & -> & Ht2 & Hev & Hs2).
      exists k, events. cbn [snd]. rewrite Ht2, Ht, Hs2, Hs.
      split_and!; [by rewrite <- app_assoc|done| |done]. intros _. by apply Hk.
    + rewrite (bind_Fatal _ _ _ _ _ E). exists k, []. cbn [snd].
      rewrite Ht, Hs, app_nil_r. cbn [started omap length].
      rewrite set_next_0. by split_and!.
    + rewrite (bind_Panic _ _ _ _ _ E). exists k, []. cbn [snd].
      rewrite Ht, Hs, app_nil_r. cbn [started omap length].
      rewrite set_next_0. by split_and!.
  - intros rafts cleanup w1 E w2.
    destruct (Cluster_Done _ _ _ _ _ _ E) as (_ & -> & _).
    rewrite mbind_unfold.
    destruct (first_shutdown_error rafts)
      as [Hok|(pre & r & err & post & -> & Hpre & Hr)].
    + rewrite (bind_Done _ _ _ _ _ (Shutdown_ok rafts w2 Hok)).
      destruct (cleanups_any knobs 0
                  (closing rafts
                     (logged w2 ((EvShutdown <$> rafts)
                                 ++ (EvFutureError <$> rafts)))))
        as (o & w3 & k & E3 & Ht & _ & Hs).
      unfold for_range. rewrite E3. exists rafts, k. cbn [snd].
      rewrite Ht, Hs. cbn [closing logged w_trace w_state].
      split_and!; [by rewrite <- !app_assoc|done|done].
    + assert (Shutdown (pre ++ r :: post) w2
              = (Fatal ("failed to shutdown raft node "
                        +:+ Itoa (Z.of_nat (length pre)) +:+ ": " +:+ err),
                 closing (pre ++ [r])
                   (logged w2 ((EvShutdown <$> (pre ++ r :: post))
                               ++ (EvFutureError <$> (pre ++ [r])))))) as E3.
      { unfold Shutdown, for_range. rewrite mbind_unfold.
        rewrite (bind_Done _ _ _ _ _ (shutdown_each_run _ w2)).
        rewrite (check_futures_fail _ _ err) by done.
        by rewrite logged_logged. }
      rewrite (bind_Fatal _ _ _ _ _ E3). exists (pre ++ [r]), 0%nat.
      cbn [snd closing logged w_trace w_state]. rewrite take_0.
      cbn [after_cleanups fmap list_fmap]. rewrite app_nil_r.
      by split_and!.
  - intros Hknobs Hcleanups Hok Hshut. rewrite EC.
    destruct (inits_run knobs 0 (mkWorld s1 (w_trace w)) Hknobs) as [E Hkeep].
    cbn [w_state w_trace] in E, Hkeep.
    unfold for_range. rewrite (bind_Done _ _ _ _ _ E).
    destruct (start_rafts_run fsms 0
                (mkWorld (after_inits knobs s1)
                   (w_trace w ++ ((EvKnobInit ∘ knob_id) <$> knobs))) Hok)
      as (rafts & E' & Hlen & _).
    { intros k Hk. cbn [w_state]. apply Hkeep.
      destruct (Hwired k Hk) as (nd & _ & Hnd & _). by exists nd. }
    rewrite (bind_Done _ _ _ _ _ E'). cbn [w_state w_trace] in *.
    eexists rafts, _, _. split; [reflexivity|]. cbn [w_trace w_state].
    split_and!; [done|by rewrite <- app_assoc|done|].
    intros w2. rewrite mbind_unfold.
    rewrite (bind_Done _ _ _ _ _ (Shutdown_ok rafts w2 (Forall_true _ _ Hshut))).
    destruct (cleanups_run knobs 0
                (closing rafts
                   (logged w2 ((EvShutdown <$> rafts)
                               ++ (EvFutureError <$> rafts))))
                Hcleanups) as (s3 & E3 & ->).
    unfold for_range. rewrite E3.
    cbn [closing logged w_trace w_state]. by rewrite <- !app_assoc.
Qed.

(** C10. [Cluster] called with an empty list of state machines does
    not fail: with knobs whose calls return, it calls each [init],
    creates no engine and returns an empty slice of handles; the
    cleanup closure it returns requests no shutdown, waits on no
    future, calls each [cleanup] and returns. *)
Theorem Cluster_no_fsms knobs w :
  Forall init_keeps_nodes knobs → Forall cleanup_returns knobs →
  ∃ cleanup w1,
    Cluster [] knobs w = (Done ([], cleanup), w1)
    ∧ w_trace w1 = w_trace w ++ ((EvKnobInit ∘ knob_id) <$> knobs)
    ∧ ∀ w2, ∃ w3,
        cleanup w2 = (Done tt, w3)
        ∧ w_trace w3 = w_trace w2 ++ ((EvKnobCleanup ∘ knob_id) <$> knobs).
Proof.
  intros Hknobs Hcleanups.
  destruct (Cluster_wires [] knobs w) as (s1 & -> & _ & _).
  destruct (inits_run knobs 0 (mkWorld s1 (w_trace w)) Hknobs) as [E _].
  unfold for_range. rewrite (bind_Done _ _ _ _ _ E).
  eexists _, _. split; [reflexivity|]. cbn [w_trace]. split; [done|].
  intros w2. rewrite mbind_unfold.
  rewrite (bind_Done _ _ _ _ _ (Shutdown_ok [] w2 (Forall_nil_2 _))).
  cbn [fmap list_fmap app]. rewrite logged_nil, closing_nil.
  destruct (cleanups_run knobs 0 w2 Hcleanups) as (s3 & E3 & _).
  unfold for_range. rewrite E3. by eexists.
Qed.
End cluster_facts.

(** * The properties at concrete inputs *)

(** [Shutdown] on three engines of which the second fails to shut down:
    all three shutdowns are requested, then the test fails at node 1. *)
Example Shutdown_second_fails :
  Shutdown (Lib:=faulty_library (KnobMem:=unit) [1%nat]) three_rafts
    (empty_world tt)
  = (Fatal "failed to shutdown raft node 1: raft is already shutdown",
     logged (empty_world tt)
       ((EvShutdown <$> three_rafts) ++ (EvFutureError <$> take 2 three_rafts))).
Proof. vm_compute. reflexivity. Qed.

(** With the knob restricting the cluster to node 0 and three state
    machines, three engines are started, not one. *)
Lemma Cluster_single_server_starts_three :
  let trace :=
    w_trace (Cluster (Lib:=quiet_library) three_fsms [only_node_0]
               (empty_world tt)).2 in
  raft_fsm <$> started trace = [0; 1; 2]%nat
  ∧ ¬ length (started trace) = 1%nat.
Proof. vm_compute. split; [reflexivity|discriminate]. Qed.

Lemma Cluster_starts_every_node_witness :
  ∃ rafts cleanup w',
    Cluster (Lib:=quiet_library) three_fsms [only_node_0] (empty_world tt)
    = (Done (rafts, cleanup), w')
    ∧ length rafts = 3%nat.
Proof.
  destruct (Cluster_starts_every_node (Lib:=quiet_library) three_fsms
              [only_node_0] (empty_world tt)) as [Hdone Hreturns].
  destruct Hreturns as (rafts & cleanup & w' & E).
  - constructor; [apply Servers_keeps_nodes|constructor].
  - intros fsm nd s. reflexivity.
  - exists rafts, cleanup, w'. split; [exact E|].
    destruct (Hdone rafts cleanup w' E) as (events & _ & Hs & Hlen & _).
    rewrite <- Hs. exact Hlen.
Defined.

Lemma Cluster_handles_aligned_witness :
  ∃ rafts cleanup w',
    Cluster (Lib:=quiet_library) three_fsms [only_node_0] (empty_world tt)
    = (Done (rafts, cleanup), w')
    ∧ raft_fsm <$> rafts !! 2%nat = Some 2%nat.
Proof.
  destruct (Cluster_handles_aligned (Lib:=quiet_library) three_fsms
              [only_node_0] (empty_world tt)) as [Hdone Hreturns].
  destruct Hreturns as (rafts & cleanup & w' & E & _).
  - constructor; [apply Servers_keeps_nodes|constructor].
  - intros fsm nd s. reflexivity.
  - exists rafts, cleanup, w'. split; [exact E|].
    destruct (Hdone rafts cleanup w' E) as (_ & Hr & _).
    destruct (Hr 2%nat 2%nat eq_refl) as (r & nd & Hr2 & Hfsm & _).
    rewrite Hr2. simpl. rewrite Hfsm. reflexivity.
Defined.

Lemma Cluster_knob_order_witness :
  ∃ rafts cleanup w1,
    Cluster (Lib:=quiet_library) three_fsms [only_node_0] (empty_world tt)
    = (Done (rafts, cleanup), w1)
    ∧ w_trace w1 = EvKnobInit 0 :: (EvNewRaft <$> rafts)
    ∧ w_trace (cleanup w1).2
      = w_trace w1 ++ (EvShutdown <$> rafts) ++ (EvFutureError <$> rafts)
          ++ [EvKnobCleanup 0].
Proof.
  destruct (Cluster_knob_order (Lib:=quiet_library) three_fsms
              [only_node_0] (empty_world tt)) as (s1 & _ & _ & _ & _ & H).
  destruct H as (rafts & cleanup & w1 & E & _ & Ht & _ & Hc).
  - constructor; [apply Servers_keeps_nodes|constructor].
  - constructor; [apply Servers_cleanup_returns|constructor].
  - intros fsm nd s. reflexivity.
  - intros r. reflexivity.
  - exists rafts, cleanup, w1. split; [exact E|]. split; [exact Ht|].
    rewrite (Hc w1). reflexivity.
Defined.

Lemma Cluster_no_fsms_witness :
  ∃ cleanup w1,
    Cluster (FSM:=nat) (Lib:=quiet_library) [] [only_node_0] (empty_world tt)
    = (Done ([], cleanup), w1)
    ∧ w_trace (cleanup w1).2 = [EvKnobInit 0; EvKnobCleanup 0].
Proof.
  destruct (Cluster_no_fsms (FSM:=nat) (Lib:=quiet_library) [only_node_0]
              (empty_world tt)) as (cleanup & w1 & E & Ht & Hc).
  - constructor; [apply Servers_keeps_nodes|constructor].
  - constructor; [apply Servers_cleanup_returns|constructor].
  - exists cleanup, w1. split; [exact E|].
    destruct (Hc w1) as (w3 & -> & Ht3). cbn [snd]. rewrite Ht3, Ht.
    reflexivity.
Defined.

Lemma populatePeerStores_other_addresses_witness :
  ∃ h',
    populatePeerStores [3; 7]%nat [0; 4]%nat two_transports two_stores
    = (Done tt, h')
    ∧ h' !! 3%nat = Some (mkStaticPeers ["1"])
    ∧ h' !! 7%nat = Some (mkStaticPeers ["0"]).
Proof.
  destruct (populatePeerStores_other_addresses [3; 7]%nat [0; 4]%nat ["0"; "1"]
              two_transports two_stores) as (h' & E & Hin & _).
  - reflexivity.
  - apply NoDup_cons. split; [|apply NoDup_singleton].
    intros Hin%list_elem_of_singleton. discriminate.
  - intros l Hl. apply elem_of_cons in Hl as [->|Hl]; [reflexivity|].
    apply list_elem_of_singleton in Hl as ->. reflexivity.
  - repeat constructor.
  - exists h'. split; [exact E|]. split.
    + exact (proj1 (Hin 0%nat 3%nat eq_refl)).
    + exact (proj1 (Hin 1%nat 7%nat eq_refl)).
Defined.

Lemma populatePeerStores_panics_on_mismatch_witness :
  (∃ h', populatePeerStores [3; 7]%nat [0; 4]%nat two_transports two_stores
         = (Done tt, h'))
  ∧ populatePeerStores [3; 7]%nat [0]%nat two_transports two_stores
    = (Panic "peer stores and tranports length mismatch", two_stores).
Proof.
  destruct (populatePeerStores_panics_on_mismatch [3; 7]%nat [0; 4]%nat
              two_transports two_stores) as [_ Hequal].
  destruct (populatePeerStores_panics_on_mismatch [3; 7]%nat [0]%nat
              two_transports two_stores) as [Hdiffer _].
  split.
  - apply Hequal.
    + apply StaticPeers_never_errors.
    + intros l Hl. apply elem_of_cons in Hl as [->|Hl]; [by eexists|].
      apply list_elem_of_singleton in Hl as ->. by eexists.
    + intros l Hl. apply elem_of_cons in Hl as [->|Hl]; [by eexists|].
      apply list_elem_of_singleton in Hl as ->. by eexists.
    + reflexivity.
  - apply Hdiffer. simpl. lia.
Defined.

Lemma connectLoobackTransports_complete_witness :
  ∃ h' t0 t1,
    connectLoobackTransports [0; 4]%nat two_transports = (Done tt, h')
    ∧ h' !! 0%nat = Some t0 ∧ peers t0 !! "1" = Some 4%nat
    ∧ h' !! 4%nat = Some t1 ∧ peers t1 !! "0" = Some 0%nat.
Proof.
  destruct (connectLoobackTransports_complete [0; 4]%nat two_transports)
    as (h' & E & Hc & _).
  - intros l Hl. apply elem_of_cons in Hl as [->|Hl]; [by eexists|].
    apply list_elem_of_singleton in Hl as ->. by eexists.
  - intros l l' a Hl Hl'.
    apply elem_of_cons in Hl as [->|Hl];
      [|apply list_elem_of_singleton in Hl as ->];
      (apply elem_of_cons in Hl' as [->|Hl'];
       [|apply list_elem_of_singleton in Hl' as ->]);
      vm_compute; congruence.
  - destruct (Hc 0%nat 1%nat 0%nat 4%nat eq_refl eq_refl) as (t0 & ty & H0 & Hy & Hp0);
      [lia|].
    destruct (Hc 1%nat 0%nat 4%nat 0%nat eq_refl eq_refl) as (t1 & ty' & H1 & Hy' & Hp1);
      [lia|].
    vm_compute in Hy, Hy'. injection Hy as <-. injection Hy' as <-.
    exists h', t0, t1. by split_and!.
Defined.


(** * Further properties *)

(** ** Loops that may stop early *)

(** Whatever way a loop ends, an invariant its body keeps holds of the
    state it leaves, and the loop ends the way its body can. *)
Lemma for_range_from_any {St A} (I : St → Prop) (Q : Outcome unit → Prop)
    (body : nat → A → M St unit) (l : list A) (i : nat) (s : St) :
  I s → Q (Done tt) →
  (∀ (k : nat) x s0, l !! k = Some x → I s0 →
     I (body (i + k)%nat x s0).2 ∧ Q (body (i + k)%nat x s0).1) →
  I (for_range_from i l body s).2 ∧ Q (for_range_from i l body s).1.
Proof.
  intros Hs HQ. revert i s Hs. induction l as [|x l IH]; intros i s Hs Hbody.
  - done.
  - simpl. unfold bind.
    destruct (Hbody 0%nat x s eq_refl Hs) as [HI1 HQ1].
    rewrite Nat.add_0_r in HI1, HQ1.
    destruct (body i x s) as [[[]|msg|msg] s1]; [|done..].
    apply IH; [done|]. intros k y s0 Hk Hs0.
    replace (S i + k)%nat with (i + S k)%nat by lia. by apply Hbody.
Qed.

(** ** More on [connectLoobackTransports] *)

Section connect_more.
Implicit Types (h : gmap loc InmemTransport) (l : loc) (a : string).

Lemma connect_call_cases h x a y :
  (∃ t, h !! x = Some t
        ∧ connect_call x a y h = (Done tt, <[x := Connect a y t]> h))
  ∨ (h !! x = None ∧ connect_call x a y h = (Panic nil_dereference, h)).
Proof.
  destruct (h !! x) as [t|] eqn:Hx.
  - left. exists t. split; [done|]. by apply connect_call_run.
  - right. split; [done|]. unfold connect_call. rewrite mbind_unfold.
    unfold bind, deref. by rewrite Hx.
Qed.

(** An invariant kept by every registration the loops can make holds
    when they end, and they end by returning or by the panic of a nil
    reference.  A registration is made on the transport at one index of
    the slice, for the transport at another index, under the local
    address it has at that time. *)
Lemma connect_loops_inv transports (I : gmap loc InmemTransport → Prop) h :
  I h →
  (∀ (i j : nat) x y h0 tx ty,
     transports !! i = Some x → transports !! j = Some y → i ≠ j →
     I h0 → h0 !! x = Some tx → h0 !! y = Some ty →
     I (<[x := Connect (LocalAddr ty) y tx]> h0)) →
  I (connectLoobackTransports transports h).2
  ∧ ((connectLoobackTransports transports h).1 = Done tt
     ∨ (connectLoobackTransports transports h).1 = Panic nil_dereference).
Proof.
  intros Hh Hstep. unfold connectLoobackTransports, for_range.
  apply (for_range_from_any I
           (λ o, o = Done tt ∨ o = Panic nil_dereference)); [done|by left|].
  intros i x h0 Hx Hh0. simpl in *.
  apply (for_range_from_any I
           (λ o, o = Done tt ∨ o = Panic nil_dereference)); [done|by left|].
  intros j y h1 Hy Hh1. simpl in *.
  unfold connect_pair. destruct (decide (i ≠ j)) as [Hij|]; [|by split; [|left]].
  rewrite !mbind_unfold. unfold bind, deref.
  destruct (h1 !! y) as [ty|] eqn:Hty; cbv beta iota zeta;
    [|by split; [|right]].
  rewrite !mbind_unfold. unfold bind.
  destruct (connect_call_cases h1 x (LocalAddr ty) y)
    as [(tx & Htx & E1)|[_ E1]]; rewrite !E1; cbv beta iota zeta;
    [|by split; [|right]].
  pose proof (Hstep i j x y h1 tx ty Hx Hy Hij Hh1 Htx Hty) as Hh2.
  set (h2 := <[x := Connect (LocalAddr ty) y tx]> h1) in *.
  rewrite !mbind_unfold. unfold bind.
  assert (h2 !! x = Some (Connect (LocalAddr ty) y tx)) as Htx2
    by apply lookup_insert_eq.
  rewrite !Htx2. cbv beta iota zeta.
  destruct (connect_call_cases h2 y (LocalAddr (Connect (LocalAddr ty) y tx)) x)
    as [(ty2 & Hty2 & E2)|[_ E2]]; rewrite !E2; [|by split; [|right]].
  split; [|by left]. cbn [snd].
  by apply (Hstep j i y x h2 ty2 (Connect (LocalAddr ty) y tx)).
Qed.

(** X5. On every list of references to in-memory transports, nil
    references, repeated ones and transports that share an address
    included, [connectLoobackTransports] either returns or panics on a
    nil reference, and the fabric it leaves has the same transports
    with the same local addresses and is unchanged outside the given
    transports.  An entry of a registry is as it was, or it has been
    overwritten to register one of the given transports under the local
    address of that transport; so no address loses its registration,
    though the transport registered under it may have been replaced.
    Every registration found afterwards was there before or is of that
    kind. *)
Theorem connectLoobackTransports_safe transports h :
  let out := (connectLoobackTransports transports h).1 in
  let h' := (connectLoobackTransports transports h).2 in
  (out = Done tt ∨ out = Panic nil_dereference)
  ∧ (∀ l, addr_at h' l = addr_at h l)
  ∧ (∀ l, l ∉ transports → h' !! l = h !! l)
  ∧ (∀ l t a, h !! l = Some t →
       ∃ t', h' !! l = Some t'
             ∧ (peers t' !! a = peers t !! a
                ∨ ∃ y, l ∈ transports ∧ y ∈ transports
                       ∧ addr_at h y = Some a ∧ peers t' !! a = Some y))
  ∧ (∀ l t' a y, h' !! l = Some t' → peers t' !! a = Some y →
       (∃ t, h !! l = Some t ∧ peers t !! a = Some y)
       ∨ (l ∈ transports ∧ y ∈ transports ∧ addr_at h y = Some a)).
Proof.
  intros out h'.
  destruct (connect_loops_inv transports
              (λ h0, (∀ l, addr_at h0 l = addr_at h l)
                     ∧ (∀ l, l ∉ transports → h0 !! l = h !! l)
                     ∧ (∀ l t a, h !! l = Some t →
                          ∃ t', h0 !! l = Some t'
                            ∧ (peers t' !! a = peers t !! a
                               ∨ ∃ y, l ∈ transports ∧ y ∈ transports
                                      ∧ addr_at h y = Some a
                                      ∧ peers t' !! a = Some y))
                     ∧ (∀ l t' a y, h0 !! l = Some t' →
                          peers t' !! a = Some y →
                          (∃ t, h !! l = Some t ∧ peers t !! a = Some y)
                          ∨ (l ∈ transports ∧ y ∈ transports
                             ∧ addr_at h y = Some a)))
              h) as [(Ha & Hf & Hk & Hr) Hout].
  - split_and!; [done|done| |].
    + intros l t a Hl. exists t. split; [done|by left].
    + intros l t' a y Hl Hy. left. by exists t'.
  - intros i j x y h0 tx ty Hx Hy Hij (Ha & Hf & Hk & Hr) Htx Hty.
    assert (x ∈ transports) as Hxin by by eapply list_elem_of_lookup_2.
    assert (y ∈ transports) as Hyin by by eapply list_elem_of_lookup_2.
    assert (addr_at h y = Some (LocalAddr ty)) as Hay.
    { rewrite <- Ha. unfold addr_at. by rewrite Hty. }
    split_and!.
    + intros l. by rewrite (addr_at_connect _ _ _ _ _ _ Htx).
    + intros l Hl. rewrite lookup_insert_ne; [by apply Hf|].
      by intros <-.
    + intros l t a Hl. destruct (Hk l t a Hl) as (t' & Ht' & Hreg).
      destruct (decide (l = x)) as [->|Hne].
      * eexists. rewrite lookup_insert_eq. split; [done|]. simpl.
        assert (t' = tx) as -> by congruence.
        destruct (decide (LocalAddr ty = a)) as [<-|Hne].
        -- rewrite lookup_insert_eq. right. by exists y.
        -- by rewrite lookup_insert_ne.
      * exists t'. by rewrite lookup_insert_ne.
    + intros l t' a y0 Hl Hy0.
      destruct (decide (l = x)) as [->|Hne].
      * rewrite lookup_insert_eq in Hl. injection Hl as <-. simpl in Hy0.
        destruct (decide (LocalAddr ty = a)) as [<-|Hne].
        -- rewrite lookup_insert_eq in Hy0. injection Hy0 as <-. by right.
        -- rewrite lookup_insert_ne in Hy0 by done. by apply (Hr x tx).
      * rewrite lookup_insert_ne in Hl by done. by apply (Hr l t').
  - by split_and!.
Qed.

(** X4. On distinct transports that are not nil and have distinct local
    addresses, the registry [connectLoobackTransports] leaves in a
    transport is the one it had with the other transports added, each
    under its own local address, and nothing else: every other entry is
    as it was, and so a transport is never registered with itself. *)
Theorem connectLoobackTransports_registry transports h :
  NoDup transports →
  (∀ l, l ∈ transports → is_Some (h !! l)) →
  distinct_addrs h transports →
  ∃ h',
    connectLoobackTransports transports h = (Done tt, h')
    ∧ ∀ x tx, x ∈ transports → h !! x = Some tx →
        ∃ tx', h' !! x = Some tx'
               ∧ LocalAddr tx' = LocalAddr tx
               ∧ (∀ y ty, y ∈ transports → y ≠ x → h !! y = Some ty →
                    peers tx' !! LocalAddr ty = Some y)
               ∧ (∀ a, (∀ y ty, y ∈ transports → y ≠ x → h !! y = Some ty →
                          LocalAddr ty ≠ a) →
                       peers tx' !! a = peers tx !! a)
               ∧ peers tx' !! LocalAddr tx = peers tx !! LocalAddr tx.
Proof.
  intros Hnodup Hvalid Hdist.
  destruct (connect_outer_spec transports h Hdist Hvalid)
    as (h' & E & Ha & _ & Hc).
  destruct (connect_loops_inv transports
              (λ h0, (∀ l, addr_at h0 l = addr_at h l)
                     ∧ ∀ x tx tx0 a, h !! x = Some tx → h0 !! x = Some tx0 →
                         (∀ y ty, y ∈ transports → y ≠ x → h !! y = Some ty →
                            LocalAddr ty ≠ a) →
                         peers tx0 !! a = peers tx !! a) h) as [[_ Hkeep] _].
  { split; [done|]. intros x tx tx0 a Hx Hx0 _. congruence. }
  { intros i j x y h0 tx0 ty0 Hx Hy Hij [Ha0 Hk0] Htx0 Hty0. split.
    - intros l. by rewrite (addr_at_connect _ _ _ _ _ _ Htx0).
    - intros z tz tz0 a Hz Hz0 Hfresh.
      destruct (decide (z = x)) as [->|Hne].
      + rewrite lookup_insert_eq in Hz0. injection Hz0 as <-. simpl.
        assert (x ≠ y) as Hxy.
        { intros ->. apply Hij. by eapply NoDup_lookup. }
        destruct (Hvalid y) as [ty Hty]; [by eapply list_elem_of_lookup_2|].
        assert (LocalAddr ty0 = LocalAddr ty) as ->.
        { pose proof (Ha0 y) as Hay. unfold addr_at in Hay.
          rewrite Hty0, Hty in Hay. by injection Hay. }
        rewrite lookup_insert_ne.
        * by apply (Hk0 x tz tx0 a).
        * apply (Hfresh y ty); [by eapply list_elem_of_lookup_2|done..].
      + rewrite lookup_insert_ne in Hz0 by done. by apply (Hk0 z tz tz0 a). }
  rewrite E in Hkeep. cbn [snd] in Hkeep.
  exists h'. split; [done|]. intros x tx Hx Htx.
  assert (is_Some (h' !! x)) as [tx' Htx'].
  { apply addr_at_is_Some. rewrite Ha. apply addr_at_is_Some. by eexists. }
  exists tx'. split; [done|].
  assert (LocalAddr tx' = LocalAddr tx) as Haddr.
  { pose proof (Ha x) as Hax. unfold addr_at in Hax.
    rewrite Htx', Htx in Hax. by injection Hax. }
  split; [done|]. split_and!.
  - intros y ty Hy Hyx Hty.
    apply list_elem_of_lookup in Hx as [i Hi].
    apply list_elem_of_lookup in Hy as [j Hj].
    destruct (Hc i j x y Hi Hj) as (a & Hay & t & Ht & Hreg).
    { intros ->. congruence. }
    rewrite Ha in Hay. unfold addr_at in Hay. rewrite Hty in Hay.
    injection Hay as <-. congruence.
  - intros a Hfresh. by apply (Hkeep x tx tx' a).
  - apply (Hkeep x tx tx'); [done..|].
    intros y ty Hy Hyx Hty Heq. apply Hyx.
    apply (Hdist y x (LocalAddr tx)); [done..| |].
    + unfold addr_at. rewrite Hty. simpl. by rewrite Heq.
    + unfold addr_at. by rewrite Htx.
Qed.
End connect_more.

Lemma connectLoobackTransports_registry_witness :
  ∃ h' t0,
    connectLoobackTransports [0; 4]%nat two_transports = (Done tt, h')
    ∧ h' !! 0%nat = Some t0
    ∧ peers t0 !! "1" = Some 4%nat ∧ peers t0 !! "0" = None.
Proof.
  destruct (connectLoobackTransports_registry [0; 4]%nat two_transports)
    as (h' & E & Hreg).
  - apply NoDup_cons. split; [|apply NoDup_singleton].
    intros Hin%list_elem_of_singleton. discriminate.
  - intros l Hl. apply elem_of_cons in Hl as [->|Hl]; [by eexists|].
    apply list_elem_of_singleton in Hl as ->. by eexists.
  - intros l l' a Hl Hl'.
    apply elem_of_cons in Hl as [->|Hl];
      [|apply list_elem_of_singleton in Hl as ->];
      (apply elem_of_cons in Hl' as [->|Hl'];
       [|apply list_elem_of_singleton in Hl' as ->]);
      vm_compute; congruence.
  - destruct (Hreg 0%nat (mkInmemTransport "0" ∅)) as (t0 & H0 & _ & Hothers & _ & Hown).
    { apply elem_of_cons. by left. }
    { reflexivity. }
    exists h', t0. split; [exact E|]. split; [exact H0|]. split.
    + apply (Hothers 4%nat (mkInmemTransport "1" ∅)).
      * apply elem_of_cons. right. by apply list_elem_of_singleton.
      * discriminate.
      * reflexivity.
    + exact Hown.
Defined.

(** ** More on [populatePeerStores] *)

Section populate_more.
Context {S : Type} `{!PeerStore S}.
Implicit Types (h : gmap loc S) (T : gmap loc InmemTransport).

(** One step of the inner loop, however it ends: it writes to the
    given store only, creates and removes no store, and it returns or
    panics on a nil reference or on an error of the store, which it
    reports with the index of the node. *)
Lemma populate_pair_any T (i : nat) store (j : nat) transport h :
  let out := (populate_pair T i store j transport h).1 in
  let h' := (populate_pair T i store j transport h).2 in
  (∀ l, l ≠ store → h' !! l = h !! l)
  ∧ (∀ l, is_Some (h' !! l) ↔ is_Some (h !! l))
  ∧ (out = Done tt ∨ out = Panic nil_dereference
     ∨ ∃ err,
         out = Panic ("failed to get peers for node " +:+ Itoa (Z.of_nat i)
                      +:+ ": " +:+ err)
         ∨ out = Panic ("failed to set peers for node " +:+ Itoa (Z.of_nat i)
                        +:+ ": " +:+ err)).
Proof.
  unfold populate_pair. destruct (decide (i = j)); [by split_and!; [..|left]|].
  rewrite !mbind_unfold. unfold bind, deref.
  destruct (h !! store) as [s|] eqn:Hs; cbv beta iota zeta;
    [|by split_and!; [..|right; left]].
  destruct (Peers s) as [addrs|err]; last first.
  { split_and!; [done..|]. right. right. exists err. by left. }
  destruct (T !! transport) as [t|]; [|by split_and!; [..|right; left]].
  cbv zeta. destruct (SetPeers (addrs ++ [LocalAddr t]) s) as [s' err].
  rewrite !mbind_unfold. unfold bind, modify.
  assert (∀ l, is_Some (<[store := s']> h !! l) ↔ is_Some (h !! l)) as Hdom.
  { intros l. destruct (decide (l = store)) as [->|Hne].
    - rewrite lookup_insert_eq, Hs. split; by eexists.
    - by rewrite lookup_insert_ne. }
  destruct err as [err|]; cbv beta iota zeta; unfold panic, ret;
    cbn [fst snd].
  - split_and!; [by intros l Hl; rewrite lookup_insert_ne|done|].
    right. right. exists err. by right.
  - split_and!; [by intros l Hl; rewrite lookup_insert_ne|done|by left].
Qed.

(** X7. Whatever peer stores and transports it is given,
    [populatePeerStores] never fails the test through [t.Fatalf]: it
    returns, or it panics with the length-mismatch message, on a nil
    reference, or with the message that getting or setting the peers of
    a node failed, which names the index of one of the given stores.
    However it ends, it has written to no store outside the given ones
    and has created or removed none. *)
Theorem populatePeerStores_only_panics stores transports T h :
  let out := (populatePeerStores stores transports T h).1 in
  let h' := (populatePeerStores stores transports T h).2 in
  (∀ l, l ∉ stores → h' !! l = h !! l)
  ∧ (∀ l, is_Some (h' !! l) ↔ is_Some (h !! l))
  ∧ (out = Done tt
     ∨ out = Panic "peer stores and tranports length mismatch"
     ∨ out = Panic nil_dereference
     ∨ ∃ (i : nat) err,
         (i < length stores)%nat
         ∧ (out = Panic ("failed to get peers for node " +:+ Itoa (Z.of_nat i)
                         +:+ ": " +:+ err)
            ∨ out = Panic ("failed to set peers for node "
                           +:+ Itoa (Z.of_nat i) +:+ ": " +:+ err))).
Proof.
  unfold populatePeerStores.
  destruct (decide (length stores ≠ length transports));
    [by split_and!; [..|right; left]|].
  set (I := λ h0 : gmap loc S,
    (∀ l, l ∉ stores → h0 !! l = h !! l)
    ∧ (∀ l, is_Some (h0 !! l) ↔ is_Some (h !! l))).
  set (Q := λ (i : nat) (o : Outcome unit),
    o = Done tt ∨ o = Panic nil_dereference
    ∨ ∃ err,
        o = Panic ("failed to get peers for node " +:+ Itoa (Z.of_nat i)
                   +:+ ": " +:+ err)
        ∨ o = Panic ("failed to set peers for node " +:+ Itoa (Z.of_nat i)
                     +:+ ": " +:+ err)).
  destruct (for_range_from_any I
              (λ o, o = Done tt ∨ ∃ i : nat, (i < length stores)%nat ∧ Q i o)
              (λ i store, for_range transports (λ j transport,
                 populate_pair T i store j transport)) stores 0 h)
    as [[Hf Hd] Hout]; [by split|by left| |].
  - intros i store h0 Hi Hh0. simpl.
    destruct (for_range_from_any I (Q i) (populate_pair T i store) transports
                0 h0) as [HI HQ]; [done|by left| |].
    + intros j transport h1 Hj [Hf1 Hd1]. simpl.
      destruct (populate_pair_any T i store j transport h1) as (Hf2 & Hd2 & Ho).
      split; [split|done].
      * intros l Hl. rewrite Hf2; [by apply Hf1|].
        intros ->. apply Hl. by eapply list_elem_of_lookup_2.
      * intros l. by rewrite Hd2.
    + split; [done|]. right. exists i. split; [by eapply lookup_lt_Some|done].
  - split_and!; [exact Hf|exact Hd|].
    destruct Hout as [Ho|(i & Hi & [Ho|[Ho|(err & [Ho|Ho])]])].
    + left. exact Ho.
    + left. exact Ho.
    + right. right. left. exact Ho.
    + right. right. right. exists i, err. split; [done|]. left. exact Ho.
    + right. right. right. exists i, err. split; [done|]. right. exact Ho.
Qed.
End populate_more.

Section static_peers_more.
Implicit Types (h : gmap loc StaticPeers) (T : gmap loc InmemTransport).

(** The outer loop, from store index [i], on stores that hold peers
    already. *)
Lemma populate_outer_static_known T transports addrs :
  Forall2 (λ l a, LocalAddr <$> T !! l = Some a) transports addrs →
  ∀ stores (i : nat) h (known : loc → list string),
    NoDup stores →
    (∀ l, l ∈ stores → h !! l = Some (mkStaticPeers (known l))) →
    ∃ h',
      for_range_from i stores (λ i store,
        for_range transports (λ j transport,
          populate_pair T i store j transport)) h = (Done tt, h')
      ∧ (∀ (k : nat) l, stores !! k = Some l →
           h' !! l
           = Some (mkStaticPeers (known l ++ delete (i + k)%nat addrs)))
      ∧ (∀ l, l ∉ stores → h' !! l = h !! l).
Proof.
  intros Haddrs stores.
  induction stores as [|store stores IH]; intros i h known Hnodup Hknown; simpl.
  - exists h. by split_and!.
  - apply NoDup_cons in Hnodup as [Hnotin Hnodup].
    unfold for_range at 1.
    erewrite bind_Done; last first.
    { apply (populate_inner_static T i store transports addrs Haddrs 0 h
               (known store)).
      apply Hknown. by left. }
    simpl. rewrite Nat.sub_0_r.
    set (h1 := <[store := mkStaticPeers (known store ++ delete i addrs)]> h).
    destruct (IH (S i) h1 known Hnodup) as (h' & E & Hin & Hout).
    { intros l Hl. unfold h1. rewrite lookup_insert_ne by set_solver.
      apply Hknown. by right. }
    exists h'. split_and!; [done| |].
    + intros [|k] l Hk; simpl in Hk.
      * injection Hk as <-. rewrite Hout by done. unfold h1.
        by rewrite lookup_insert_eq, Nat.add_0_r.
      * replace (i + S k)%nat with (S i + k)%nat by lia. by apply Hin.
    + intros l Hl. apply not_elem_of_cons in Hl as [Hne Hl].
      rewrite Hout by done. unfold h1. by rewrite lookup_insert_ne.
Qed.

(** X6. [populatePeerStores] adds to a peer store and does not
    replace what it holds, so it is not idempotent.  On distinct new
    peer stores, as [newNode] creates them, and as many transports, a
    first run leaves in the store of node i the addresses of the other
    nodes in index order; a second run on the same stores returns as
    well and leaves every address of another node in the store a second
    time.  Stores outside the given ones are as they were. *)
Theorem populatePeerStores_appends stores transports addrs T h :
  length stores = length transports →
  NoDup stores →
  (∀ l, l ∈ stores → h !! l = Some (mkStaticPeers [])) →
  Forall2 (λ l a, LocalAddr <$> T !! l = Some a) transports addrs →
  ∃ h' h'',
    populatePeerStores stores transports T h = (Done tt, h')
    ∧ (∀ (i : nat) l, stores !! i = Some l →
         h' !! l = Some (mkStaticPeers (delete i addrs)))
    ∧ populatePeerStores stores transports T h' = (Done tt, h'')
    ∧ (∀ (i : nat) l, stores !! i = Some l →
         h'' !! l
         = Some (mkStaticPeers (delete i addrs ++ delete i addrs)))
    ∧ (∀ l, l ∉ stores → h'' !! l = h !! l).
Proof.
  intros Hlen Hnodup Hknown Haddrs.
  destruct (populate_outer_static_known T transports addrs Haddrs stores 0 h
              (λ _, []) Hnodup Hknown) as (h' & E & Hin & Hout).
  set (known' := λ l, match h' !! l with
                      | Some s => staticPeers s
                      | None => []
                      end).
  destruct (populate_outer_static_known T transports addrs Haddrs stores 0 h'
              known' Hnodup) as (h'' & E' & Hin' & Hout').
  { intros l [k Hk]%list_elem_of_lookup. unfold known'.
    by rewrite (Hin k l Hk). }
  exists h', h''. unfold populatePeerStores.
  rewrite decide_False by lia. split_and!; [done| |done| |].
  - intros i l Hi. by rewrite (Hin i l Hi).
  - intros i l Hi. rewrite (Hin' i l Hi). unfold known'.
    by rewrite (Hin i l Hi).
  - intros l Hl. by rewrite Hout', Hout.
Qed.
End static_peers_more.

Lemma populatePeerStores_appends_witness :
  ∃ h' h'',
    populatePeerStores [3; 7]%nat [0; 4]%nat two_transports two_stores
    = (Done tt, h')
    ∧ populatePeerStores [3; 7]%nat [0; 4]%nat two_transports h'
      = (Done tt, h'')
    ∧ h'' !! 3%nat = Some (mkStaticPeers ["1"; "1"]).
Proof.
  destruct (populatePeerStores_appends [3; 7]%nat [0; 4]%nat ["0"; "1"]
              two_transports two_stores)
    as (h' & h'' & E & _ & E' & Hin & _).
  - reflexivity.
  - apply NoDup_cons. split; [|apply NoDup_singleton].
    intros Hin%list_elem_of_singleton. discriminate.
  - intros l Hl. apply elem_of_cons in Hl as [->|Hl]; [reflexivity|].
    apply list_elem_of_singleton in Hl as ->. reflexivity.
  - repeat constructor.
  - exists h', h''. split; [exact E|]. split; [exact E'|].
    exact (Hin 0%nat 3%nat eq_refl).
Defined.

(** ** More on [Cluster] *)

Section cluster_failures.
Context {FSM KnobMem : Type} `{Lib : !@Library FSM KnobMem}.
Implicit Types (w : @World FSM KnobMem) (s : @State KnobMem)
  (knobs : list (@Knob KnobMem)) (fsms : list FSM).

Lemma newRaft_ok_at fsm (nd : node) w :
  NewRaft_error fsm nd (w_state w) = None →
  newRaft fsm (Some nd) w
  = (Done (inl (mkRaft (st_next (w_state w)) fsm nd)),
     mkWorld (set_next S (w_state w))
       (w_trace w ++ [EvNewRaft (mkRaft (st_next (w_state w)) fsm nd)])).
Proof.
  intros Hok. destruct nd as [c lg st sn ps tr]. unfold newRaft, NewRaft.
  cbn [node.Config node.Logs node.Stable node.Snapshots node.Peers
       node.Transport].
  rewrite mbind_unfold.
  rewrite (bind_Done _ _ _ _ _ (on_state_run get w _ _ eq_refl)).
  destruct w as [s tr0]. cbn [w_state w_trace] in *. by rewrite Hok.
Qed.

Lemma newRaft_err_at fsm (nd : node) w err :
  NewRaft_error fsm nd (w_state w) = Some err →
  newRaft fsm (Some nd) w = (Done (inr err), logged w [EvNewRaftFailed fsm nd]).
Proof.
  intros Herr. destruct nd as [c lg st sn ps tr]. unfold newRaft, NewRaft.
  cbn [node.Config node.Logs node.Stable node.Snapshots node.Peers
       node.Transport].
  rewrite mbind_unfold.
  rewrite (bind_Done _ _ _ _ _ (on_state_run get w _ _ eq_refl)).
  destruct w as [s tr0]. cbn [w_state w_trace] in *. by rewrite Herr.
Qed.

Lemma start_rafts_step fsm fsms (i : nat) w :
  start_rafts i (fsm :: fsms) w
  = bind (newRaft fsm (nodes (st_cluster (w_state w)) !! Z.of_nat i))
      (λ r, match r with
            | inr err =>
                fatalf ("failed to start test raft node " +:+ Itoa (Z.of_nat i)
                        +:+ ": " +:+ err)
            | inl raft =>
                rafts ← start_rafts (S i) fsms;
                ret (raft :: rafts)
            end) w.
Proof.
  simpl start_rafts. rewrite mbind_unfold.
  rewrite (bind_Done _ _ _ _ _ (on_state_run get w _ _ eq_refl)).
  by replace (mkWorld (w_state w) (w_trace w)) with w by by destruct w.
Qed.

(** The last loop of [Cluster] when the library refuses an engine: the
    engines before it are created, and the loop fails the test naming
    the index of the refused one. *)
Lemma start_rafts_fails pre bad post err : ∀ (i : nat) w,
  (∀ fsm nd s, fsm ∈ pre → NewRaft_error fsm nd s = None) →
  (∀ nd s, NewRaft_error bad nd s = Some err) →
  (∀ k : nat, (k ≤ length pre)%nat →
     is_Some (nodes (st_cluster (w_state w)) !! Z.of_nat (i + k))) →
  ∃ rafts nd w',
    start_rafts i (pre ++ bad :: post) w
    = (Fatal ("failed to start test raft node "
              +:+ Itoa (Z.of_nat (i + length pre)) +:+ ": " +:+ err), w')
    ∧ w_trace w'
      = w_trace w ++ (EvNewRaft <$> rafts) ++ [EvNewRaftFailed bad nd]
    ∧ raft_fsm <$> rafts = pre.
Proof.
  induction pre as [|fsm pre IH]; intros i w Hpre Hbad Hnodes.
  - destruct (Hnodes 0%nat) as [nd Hnd]; [simpl; lia|].
    rewrite Nat.add_0_r in Hnd. simpl app. rewrite start_rafts_step, Hnd.
    rewrite (bind_Done _ _ _ _ _ (newRaft_err_at bad nd w err (Hbad _ _))).
    exists [], nd, (logged w [EvNewRaftFailed bad nd]).
    simpl. by rewrite Nat.add_0_r.
  - destruct (Hnodes 0%nat) as [nd Hnd]; [simpl; lia|].
    rewrite Nat.add_0_r in Hnd. simpl app. rewrite start_rafts_step, Hnd.
    assert (NewRaft_error fsm nd (w_state w) = None) as Hok
      by (apply Hpre; by left).
    rewrite (bind_Done _ _ _ _ _ (newRaft_ok_at fsm nd w Hok)).
    set (r := mkRaft (st_next (w_state w)) fsm nd).
    destruct (IH (S i) (mkWorld (set_next S (w_state w))
                          (w_trace w ++ [EvNewRaft r])))
      as (rafts & nd' & w' & E & Ht & Hf).
    { intros fsm' nd' s' Hin. apply Hpre. by right. }
    { done. }
    { intros k Hk. cbn [w_state st_cluster set_next].
      replace (S i + k)%nat with (i + S k)%nat by lia.
      apply Hnodes. simpl. lia. }
    rewrite mbind_unfold. rewrite (bind_Fatal _ _ _ _ _ E).
    exists (r :: rafts), nd', w'. split_and!.
    + by replace (i + length (fsm :: pre))%nat
        with (S i + length pre)%nat by (simpl; lia).
    + rewrite Ht. cbn [w_trace]. by rewrite <- app_assoc.
    + rewrite fmap_cons. by rewrite Hf.
Qed.

(** X1. When the library refuses to create the engine of one of the
    state machines, having created those before it, [Cluster] fails the
    test with a message naming the index of that state machine and
    returns no handle.  The engines before it were started and are left
    running: the calls made are the knobs' [init] calls, the creation
    of those engines and the refused creation, and no shutdown. *)
Theorem Cluster_fails_at_first_NewRaft_error pre bad post err knobs w :
  Forall init_keeps_nodes knobs →
  (∀ fsm nd s, fsm ∈ pre → NewRaft_error fsm nd s = None) →
  (∀ nd s, NewRaft_error bad nd s = Some err) →
  ∃ rafts nd w',
    Cluster (pre ++ bad :: post) knobs w
    = (Fatal ("failed to start test raft node "
              +:+ Itoa (Z.of_nat (length pre)) +:+ ": " +:+ err), w')
    ∧ w_trace w'
      = w_trace w ++ ((EvKnobInit ∘ knob_id) <$> knobs)
          ++ (EvNewRaft <$> rafts) ++ [EvNewRaftFailed bad nd]
    ∧ raft_fsm <$> rafts = pre.
Proof.
  intros Hknobs Hpre Hbad.
  destruct (Cluster_wires (pre ++ bad :: post) knobs w) as (s1 & -> & _ & Hw).
  destruct (inits_run knobs 0 (mkWorld s1 (w_trace w)) Hknobs) as [E Hkeep].
  cbn [w_state w_trace] in E, Hkeep.
  unfold for_range. rewrite (bind_Done _ _ _ _ _ E).
  destruct (start_rafts_fails pre bad post err 0
              (mkWorld (after_inits knobs s1)
                 (w_trace w ++ ((EvKnobInit ∘ knob_id) <$> knobs))) Hpre Hbad)
    as (rafts & nd & w' & E' & Ht & Hf).
  { intros k Hk. cbn [w_state]. apply Hkeep.
    destruct (Hw k) as (nd & _ & Hnd & _); [|by exists nd].
    rewrite length_app. simpl. lia. }
  rewrite (bind_Fatal _ _ _ _ _ E'). exists rafts, nd, w'.
  split_and!; [done| |done]. rewrite Ht. cbn [w_trace].
  by rewrite <- app_assoc.
Qed.

Lemma inits_return_run knobs : ∀ (i : nat) w,
  Forall init_returns knobs →
  for_range_from i knobs (λ _ knob, call_init knob) w
  = (Done tt, mkWorld (after_inits knobs (w_state w))
                (w_trace w ++ ((EvKnobInit ∘ knob_id) <$> knobs))).
Proof.
  induction knobs as [|k knobs IH]; intros i w Hk; simpl.
  - unfold ret. f_equal. destruct w. simpl. by rewrite app_nil_r.
  - apply Forall_cons in Hk as [Hk Hknobs].
    destruct (Hk (w_state w)) as (s' & E).
    rewrite (bind_Done _ _ _ _ _ (call_init_run k w _ _ E)).
    rewrite (IH (S i) _ Hknobs). rewrite E. cbn [w_state w_trace snd].
    by rewrite <- app_assoc.
Qed.

(** The last loop of [Cluster] when the cluster holds no node at an
    index: the engines before it are created, and the loop panics on
    the nil node. *)
Lemma start_rafts_nil (m : nat) : ∀ fsms (i : nat) w,
  NewRaft_succeeds → (m < length fsms)%nat →
  (∀ k : nat, (k < m)%nat →
     is_Some (nodes (st_cluster (w_state w)) !! Z.of_nat (i + k))) →
  nodes (st_cluster (w_state w)) !! Z.of_nat (i + m) = None →
  ∃ rafts w',
    start_rafts i fsms w = (Panic nil_dereference, w')
    ∧ w_trace w' = w_trace w ++ (EvNewRaft <$> rafts)
    ∧ length rafts = m.
Proof.
  induction m as [|m IH]; intros fsms i w Hok Hlen Hnodes Hnil.
  - destruct fsms as [|fsm fsms]; [simpl in Hlen; lia|].
    rewrite Nat.add_0_r in Hnil. rewrite start_rafts_step, Hnil.
    exists [], w. simpl. by rewrite app_nil_r.
  - destruct fsms as [|fsm fsms]; [simpl in Hlen; lia|].
    destruct (Hnodes 0%nat) as [nd Hnd]; [lia|].
    rewrite Nat.add_0_r in Hnd. rewrite start_rafts_step, Hnd.
    rewrite (bind_Done _ _ _ _ _ (newRaft_ok_at fsm nd w (Hok _ _ _))).
    set (r := mkRaft (st_next (w_state w)) fsm nd).
    destruct (IH fsms (S i) (mkWorld (set_next S (w_state w))
                               (w_trace w ++ [EvNewRaft r])) Hok)
      as (rafts & w' & E & Ht & Hl).
    { simpl in Hlen. lia. }
    { intros k Hk. cbn [w_state st_cluster set_next].
      replace (S i + k)%nat with (i + S k)%nat by lia. apply Hnodes. lia. }
    { cbn [w_state st_cluster set_next].
      by replace (S i + m)%nat with (i + S m)%nat by lia. }
    rewrite mbind_unfold. rewrite (bind_Panic _ _ _ _ _ E).
    exists (r :: rafts), w'. split_and!; [done| |simpl; lia].
    rewrite Ht. cbn [w_trace]. by rewrite <- app_assoc.
Qed.

(** X2. When the knobs' [init] calls return but leave the cluster
    without a node at an index below N, the nodes before it being kept,
    [Cluster] panics with a nil dereference when it comes to that index:
    it has created the engines of the indices before it, which are left
    running, and it returns no handle. *)
Theorem Cluster_panics_on_missing_node fsms knobs w (m : nat) :
  Forall init_returns knobs → NewRaft_succeeds →
  (m < length fsms)%nat →
  (∀ s, nodes (st_cluster (after_inits knobs s)) !! Z.of_nat m = None) →
  (∀ s (k : nat), (k < m)%nat →
     is_Some (nodes (st_cluster s) !! Z.of_nat k) →
     is_Some (nodes (st_cluster (after_inits knobs s)) !! Z.of_nat k)) →
  ∃ rafts w',
    Cluster fsms knobs w = (Panic nil_dereference, w')
    ∧ w_trace w'
      = w_trace w ++ ((EvKnobInit ∘ knob_id) <$> knobs) ++ (EvNewRaft <$> rafts)
    ∧ length rafts = m.
Proof.
  intros Hknobs Hok Hm Hnil Hkeep.
  destruct (Cluster_wires fsms knobs w) as (s1 & -> & _ & Hw).
  unfold for_range.
  rewrite (bind_Done _ _ _ _ _
             (inits_return_run knobs 0 (mkWorld s1 (w_trace w)) Hknobs)).
  cbn [w_state w_trace].
  destruct (start_rafts_nil m fsms 0
              (mkWorld (after_inits knobs s1)
                 (w_trace w ++ ((EvKnobInit ∘ knob_id) <$> knobs))) Hok Hm)
    as (rafts & w' & E & Ht & Hl).
  { intros k Hk. cbn [w_state]. apply Hkeep; [done|].
    destruct (Hw k) as (nd & _ & Hnd & _); [lia|by exists nd]. }
  { cbn [w_state]. apply Hnil. }
  rewrite (bind_Panic _ _ _ _ _ E). exists rafts, w'.
  split_and!; [done| |done]. rewrite Ht. cbn [w_trace].
  by rewrite <- app_assoc.
Qed.

Lemma close_transport_lookup (t : Transport) (s : @State KnobMem) l :
  st_transports (close_transport t s) !! l
  = match t with
    | InmemTransportRef l0 =>
        if decide (l0 = l) then Close <$> st_transports s !! l
        else st_transports s !! l
    | NetworkTransport _ => st_transports s !! l
    end.
Proof.
  destruct t as [l0|a]; [|done]. cbn [close_transport set_transports
                                       st_transports].
  destruct (decide (l0 = l)) as [->|Hne].
  - by rewrite lookup_alter_eq.
  - by rewrite lookup_alter_ne.
Qed.

Lemma Close_fmap_Close (o : option InmemTransport) :
  Close <$> (Close <$> o) = Close <$> o.
Proof. by destruct o. Qed.

Lemma closed_cases (rafts : list (@Raft FSM)) : ∀ s l,
  st_transports (closed rafts s) !! l = st_transports s !! l
  ∨ st_transports (closed rafts s) !! l = Close <$> st_transports s !! l.
Proof.
  induction rafts as [|r0 rafts IH]; intros s l; [by left|].
  change (closed (r0 :: rafts) s)
    with (closed rafts (close_transport (node.Transport (raft_deps r0)) s)).
  destruct (IH (close_transport (node.Transport (raft_deps r0)) s) l)
    as [->| ->]; rewrite close_transport_lookup;
    destruct (node.Transport (raft_deps r0)) as [l0|a];
    try destruct (decide (l0 = l)); rewrite ?Close_fmap_Close; auto.
Qed.

(** Checking the futures of engines closes the transports of these
    engines, each once and for all, and changes nothing else. *)
Lemma closed_spec (rafts : list (@Raft FSM)) : ∀ s,
  st_stores (closed rafts s) = st_stores s
  ∧ st_next (closed rafts s) = st_next s
  ∧ st_cluster (closed rafts s) = st_cluster s
  ∧ st_knobs (closed rafts s) = st_knobs s
  ∧ (∀ l, (∀ r, r ∈ rafts →
             node.Transport (raft_deps r) ≠ InmemTransportRef l) →
          st_transports (closed rafts s) !! l = st_transports s !! l)
  ∧ (∀ l r, r ∈ rafts → node.Transport (raft_deps r) = InmemTransportRef l →
          st_transports (closed rafts s) !! l
          = Close <$> st_transports s !! l).
Proof.
  induction rafts as [|r0 rafts IH]; intros s.
  - split_and!; [done..|]. intros l r Hr. by apply elem_of_nil in Hr.
  - change (closed (r0 :: rafts) s)
      with (closed rafts (close_transport (node.Transport (raft_deps r0)) s)).
    destruct (IH (close_transport (node.Transport (raft_deps r0)) s))
      as (Hst & Hn & Hc & Hk & Hout & Hin).
    rewrite Hst, Hn, Hc, Hk.
    split_and!;
      [by destruct (node.Transport (raft_deps r0))..| |].
    + intros l Hl. rewrite Hout.
      * rewrite close_transport_lookup.
        destruct (node.Transport (raft_deps r0)) as [l0|a] eqn:Ht; [|done].
        destruct (decide (l0 = l)) as [->|]; [|done].
        exfalso. apply (Hl r0); [by left|done].
      * intros r Hr. apply Hl. by right.
    + intros l r Hr Ht. apply elem_of_cons in Hr as [->|Hr].
      * destruct (closed_cases rafts
                    (close_transport (node.Transport (raft_deps r0)) s) l)
          as [->| ->]; rewrite close_transport_lookup, Ht;
          destruct (decide (l = l)); rewrite ?Close_fmap_Close; done.
      * rewrite (Hin l r Hr Ht). rewrite close_transport_lookup.
        destruct (node.Transport (raft_deps r0)) as [l0|a]; [|done].
        destruct (decide (l0 = l)); by rewrite ?Close_fmap_Close.
Qed.

(** X3. When the shutdown of one of the engines [Cluster] returned
    reports an error, those before it reporting none, the cleanup
    closure fails the test with a message naming the index of that
    engine.  It has then requested the shutdown of every engine and
    checked the futures up to that one, and it has called no knob's
    [cleanup].  The memory it leaves is the one it found with the
    transports of the engines whose futures it checked closed, their
    registries emptied: the other transports, the peer stores, the
    cluster and the memory of the knobs are as they were. *)
Theorem cleanup_stops_at_shutdown_error fsms knobs w rafts cleanup w1
    (i : nat) r err w2 :
  Cluster fsms knobs w = (Done (rafts, cleanup), w1) →
  rafts !! i = Some r →
  Shutdown_error r = Some err →
  (∀ (j : nat) r', (j < i)%nat → rafts !! j = Some r' →
     Shutdown_error r' = None) →
  let s3 := w_state (cleanup w2).2 in
  cleanup w2
  = (Fatal ("failed to shutdown raft node " +:+ Itoa (Z.of_nat i)
            +:+ ": " +:+ err),
     closing (take (S i) rafts)
       (logged w2 ((EvShutdown <$> rafts)
                   ++ (EvFutureError <$> take (S i) rafts))))
  ∧ st_stores s3 = st_stores (w_state w2)
  ∧ st_cluster s3 = st_cluster (w_state w2)
  ∧ st_knobs s3 = st_knobs (w_state w2)
  ∧ (∀ l, (∀ r', r' ∈ take (S i) rafts →
             node.Transport (raft_deps r') ≠ InmemTransportRef l) →
          st_transports s3 !! l = st_transports (w_state w2) !! l)
  ∧ (∀ l r', r' ∈ take (S i) rafts →
       node.Transport (raft_deps r') = InmemTransportRef l →
       st_transports s3 !! l = Close <$> st_transports (w_state w2) !! l).
Proof.
  intros E Hi Hr Hbefore s3.
  destruct (Cluster_Done _ _ _ _ _ _ E) as (_ & Hc & _).
  assert (cleanup w2
          = (Fatal ("failed to shutdown raft node " +:+ Itoa (Z.of_nat i)
                    +:+ ": " +:+ err),
             closing (take (S i) rafts)
               (logged w2 ((EvShutdown <$> rafts)
                           ++ (EvFutureError <$> take (S i) rafts))))) as E3.
  { rewrite Hc. rewrite mbind_unfold. apply bind_Fatal.
    unfold Shutdown, for_range. rewrite mbind_unfold.
    rewrite (bind_Done _ _ _ _ _ (shutdown_each_run _ w2)).
    pose proof (lookup_lt_Some _ _ _ Hi) as Hlt.
    assert (Forall (λ r, Shutdown_error r = None) (take i rafts)) as Hpre.
    { apply Forall_forall. intros r' [j Hj]%list_elem_of_lookup.
      apply lookup_take_Some in Hj as [Hj Hji]. by apply (Hbefore j). }
    pose proof (check_futures_fail (take i rafts) r err (drop (S i) rafts)
                  0 (logged w2 (EvShutdown <$> rafts)) Hpre Hr) as Hf.
    rewrite (take_drop_middle rafts i r Hi), length_take_le in Hf by lia.
    rewrite Hf, logged_logged. by rewrite (take_S_r _ _ _ Hi). }
  split; [exact E3|]. subst s3. rewrite E3.
  cbn [snd closing logged w_state].
  destruct (closed_spec (take (S i) rafts) (w_state w2))
    as (Hst & _ & Hcl & Hk & Hout & Hin).
  by split_and!.
Qed.
End cluster_failures.

Section cluster_memory.
Context {FSM KnobMem : Type} `{Lib : !@Library FSM KnobMem}.
Implicit Types (w : @World FSM KnobMem) (s : @State KnobMem)
  (knobs : list (@Knob KnobMem)) (fsms : list FSM).

(** The last loop of [Cluster] only takes new references for the
    engines it creates, however it ends. *)
Lemma start_rafts_memory fsms : ∀ (i : nat) w,
  let w' := (start_rafts i fsms w).2 in
  st_transports (w_state w') = st_transports (w_state w)
  ∧ st_stores (w_state w') = st_stores (w_state w)
  ∧ st_cluster (w_state w') = st_cluster (w_state w)
  ∧ st_knobs (w_state w') = st_knobs (w_state w).
Proof.
  induction fsms as [|fsm fsms IH]; intros i w; [done|].
  rewrite start_rafts_step. unfold bind.
  destruct (newRaft_cases fsm (nodes (st_cluster (w_state w)) !! Z.of_nat i) w)
    as [[_ ->]|[(n & err & _ & ->)|(n & _ & ->)]]; [done|done|].
  rewrite mbind_unfold. unfold bind.
  specialize (IH (S i) (mkWorld (set_next S (w_state w))
                          (w_trace w ++ [EvNewRaft
                             (mkRaft (st_next (w_state w)) fsm n)]))).
  cbv zeta in IH. cbn [w_state st_transports st_stores st_cluster st_knobs
                       set_next] in IH.
  by destruct (start_rafts (S i) fsms _) as [[rafts|msg|msg] w2].
Qed.

(** X9. Building a cluster without knobs leaves what the test had
    already in memory as it was, whether or not the engines can be
    created: every transport and every peer store allocated earlier is
    unchanged, and so is the memory of the knobs.  A second cluster
    does not disturb the wiring of a first one. *)
Theorem Cluster_keeps_earlier_objects fsms w :
  let w' := (Cluster fsms [] w).2 in
  (∀ l : loc, (l < st_next (w_state w))%nat →
     st_transports (w_state w') !! l = st_transports (w_state w) !! l
     ∧ st_stores (w_state w') !! l = st_stores (w_state w) !! l)
  ∧ st_knobs (w_state w') = st_knobs (w_state w).
Proof.
  destruct (Cluster_wires_full fsms [] w)
    as (s1 & -> & Hk & _ & _ & _ & _ & Hold).
  unfold for_range. simpl for_range_from.
  rewrite (bind_Done (ret tt) _ (mkWorld s1 (w_trace w)) tt
             (mkWorld s1 (w_trace w)) eq_refl).
  pose proof (start_rafts_memory fsms 0 (mkWorld s1 (w_trace w)))
    as (Ht & Hs & _ & Hkn).
  cbn [w_state] in Ht, Hs, Hkn. unfold bind.
  destruct (start_rafts 0 fsms _) as [[rafts|msg|msg] w2];
    cbv beta iota zeta; unfold ret; cbn [snd] in *;
    (split; [intros l Hl; rewrite Ht, Hs; by apply Hold|congruence]).
Qed.

(** X8. Without knobs and on a library that creates every engine,
    [Cluster] creates the engine at index i from [fsms[i]] and from
    exactly the dependency set [newNode] returns for the decimal form
    of i: its own in-memory transport, log store, stable store and peer
    store, which no other engine of the cluster has, and the
    configuration with the shortened timeouts and the logger prefixed
    with the node's index. *)
Theorem Cluster_engines_without_knobs fsms w :
  NewRaft_succeeds →
  let base := st_next (w_state w) in
  ∃ rafts cleanup w',
    Cluster fsms [] w = (Done (rafts, cleanup), w')
    ∧ length rafts = length fsms
    ∧ ∀ (i : nat) fsm, fsms !! i = Some fsm →
        ∃ r, rafts !! i = Some r
             ∧ raft_fsm r = fsm
             ∧ raft_id r = (base + 4 * length fsms + i)%nat
             ∧ (∀ s0, st_next s0 = (base + 4 * i)%nat →
                  (newNode (Itoa (Z.of_nat i)) s0).1 = Done (raft_deps r))
             ∧ node.Transport (raft_deps r) = InmemTransportRef (base + 4 * i)
             ∧ node.Logs (raft_deps r) = InmemStore (base + 4 * i + 1)
             ∧ node.Stable (raft_deps r) = InmemStore (base + 4 * i + 2)
             ∧ node.Snapshots (raft_deps r) = DiscardSnapshotStore
             ∧ node.Peers (raft_deps r) = (base + 4 * i + 3)%nat
             ∧ HeartbeatTimeout (node.Config (raft_deps r)) = 50 * Millisecond
             ∧ ConfigLogger (node.Config (raft_deps r))
               = Some (mkLogger (Itoa (Z.of_nat i) +:+ ": ")
                         (Z.lor Ltime Lmicroseconds)).
Proof.
  intros Hok base.
  destruct (Cluster_wires_full fsms [] w)
    as (s1 & -> & _ & _ & Hnext & Hnodes & _ & _).
  fold base in Hnext, Hnodes.
  unfold for_range. simpl for_range_from.
  rewrite (bind_Done (ret tt) _ (mkWorld s1 (w_trace w)) tt
             (mkWorld s1 (w_trace w)) eq_refl).
  destruct (start_rafts_run fsms 0 (mkWorld s1 (w_trace w)) Hok)
    as (rafts & E & Hlen & Hrafts).
  { intros k Hk. cbn [w_state]. destruct (Hnodes k Hk) as (nd & Hnd & _).
    by exists nd. }
  rewrite (bind_Done _ _ _ _ _ E). eexists rafts, _, _.
  split; [reflexivity|]. split; [done|].
  intros i fsm Hi. destruct (Hrafts i fsm Hi) as (nd & Hnd & Hr).
  cbn [w_state] in Hnd, Hr. rewrite Nat.add_0_l in Hnd.
  pose proof (lookup_lt_Some _ _ _ Hi) as Hlt.
  destruct (Hnodes i Hlt) as (nd' & Hnd' & Hnew).
  assert (nd' = nd) as -> by congruence.
  eexists. split; [exact Hr|]. cbn [raft_fsm raft_id raft_deps].
  split; [done|]. split; [by rewrite Hnext|]. split; [done|].
  specialize (Hnew (mkState ∅ ∅ (base + 4 * i)%nat (mkCluster ∅)
                      (st_knobs (w_state w))) eq_refl).
  rewrite newNode_run in Hnew. cbn [fst st_next] in Hnew.
  injection Hnew as <-.
  cbn [node.Transport node.Logs node.Stable node.Snapshots node.Peers
       node.Config HeartbeatTimeout ConfigLogger].
  split_and!; try done; f_equal; lia.
Qed.

(** X10. The knobs have the last word on the wiring: [Cluster] calls
    them on the cluster fully wired (every node built, every transport
    connected to every other, every peer store populated), each [init]
    on the memory the one before it left, and it creates the engines on
    the memory the last [init] left, changing nothing of it but taking
    one new reference for each engine. *)
Theorem Cluster_knobs_after_wiring fsms knobs w :
  Forall init_keeps_nodes knobs → NewRaft_succeeds →
  ∃ s1 rafts cleanup w',
    Cluster fsms knobs w = (Done (rafts, cleanup), w')
    ∧ wired (length fsms) (st_next (w_state w)) s1
    ∧ st_knobs s1 = st_knobs (w_state w)
    ∧ w_state w' = set_next (λ x, length fsms + x)%nat (after_inits knobs s1)
    ∧ ∀ (i : nat) r, rafts !! i = Some r →
        nodes (st_cluster (after_inits knobs s1)) !! Z.of_nat i
        = Some (raft_deps r).
Proof.
  intros Hknobs Hok.
  destruct (Cluster_wires fsms knobs w) as (s1 & -> & Hkn & Hwired).
  destruct (inits_run knobs 0 (mkWorld s1 (w_trace w)) Hknobs) as [E Hkeep].
  cbn [w_state w_trace] in E, Hkeep.
  unfold for_range. rewrite (bind_Done _ _ _ _ _ E).
  destruct (start_rafts_run fsms 0
              (mkWorld (after_inits knobs s1)
                 (w_trace w ++ ((EvKnobInit ∘ knob_id) <$> knobs))) Hok)
    as (rafts & E' & Hlen & Hrafts).
  { intros k Hk. cbn [w_state]. apply Hkeep.
    destruct (Hwired k Hk) as (nd & _ & Hnd & _). by exists nd. }
  rewrite (bind_Done _ _ _ _ _ E'). cbn [w_state w_trace] in *.
  eexists s1, rafts, _, _. split; [reflexivity|]. cbn [w_state].
  split_and!; [done..|].
  intros i r Hi. pose proof (lookup_lt_Some _ _ _ Hi) as Hlt.
  rewrite Hlen in Hlt. destruct (lookup_lt_is_Some_2 fsms i Hlt) as [fsm Hfsm].
  destruct (Hrafts i fsm Hfsm) as (nd & Hnd & Hr).
  rewrite Nat.add_0_l in Hnd. rewrite Hnd. f_equal.
  rewrite Hr in Hi. by injection Hi as <-.
Qed.
End cluster_memory.

Lemma Cluster_knobs_after_wiring_witness :
  ∃ rafts cleanup w' r,
    Cluster (Lib:=quiet_library) three_fsms [only_node_0] (empty_world tt)
    = (Done (rafts, cleanup), w')
    ∧ rafts !! 0%nat = Some r
    ∧ nodes (st_cluster (w_state w')) !! 0 = Some (raft_deps r).
Proof.
  destruct (Cluster_knobs_after_wiring (Lib:=quiet_library) three_fsms
              [only_node_0] (empty_world tt))
    as (s1 & rafts & cleanup & w' & E & _ & _ & Hw & Hr).
  - constructor; [apply Servers_keeps_nodes|constructor].
  - intros fsm nd s. reflexivity.
  - destruct (Cluster_Done _ _ _ _ _ _ E) as (_ & _ & Hlen & _).
    destruct (lookup_lt_is_Some_2 rafts 0%nat) as [r H0].
    { rewrite Hlen. simpl. lia. }
    exists rafts, cleanup, w', r. split; [exact E|]. split; [exact H0|].
    rewrite Hw. exact (Hr 0%nat r H0).
Defined.

Lemma Cluster_fails_at_first_NewRaft_error_witness :
  ∃ w',
    Cluster (Lib:=refusing_library 1) three_fsms [only_node_0] (empty_world tt)
    = (Fatal "failed to start test raft node 1: log store is closed", w')
    ∧ raft_fsm <$> started (w_trace w') = [0%nat].
Proof.
  destruct (Cluster_fails_at_first_NewRaft_error (Lib:=refusing_library 1)
              [0%nat] 1%nat [2%nat] "log store is closed" [only_node_0]
              (empty_world tt)) as (rafts & nd & w' & E & Ht & Hf).
  - constructor; [apply Servers_keeps_nodes|constructor].
  - intros fsm nd s Hin. apply list_elem_of_singleton in Hin as ->. reflexivity.
  - intros nd s. reflexivity.
  - exists w'. split; [exact E|]. rewrite Ht.
    rewrite !started_app, started_NewRaft. simpl. rewrite app_nil_r. exact Hf.
Defined.

Lemma Cluster_panics_on_missing_node_witness :
  ∃ rafts w',
    Cluster (Lib:=quiet_library) three_fsms [drop_node (KnobMem:=unit) 0 1]
      (empty_world tt)
    = (Panic nil_dereference, w')
    ∧ w_trace w' = EvKnobInit 0 :: (EvNewRaft <$> rafts)
    ∧ length rafts = 1%nat.
Proof.
  destruct (Cluster_panics_on_missing_node (Lib:=quiet_library) three_fsms
              [drop_node (KnobMem:=unit) 0 1] (empty_world tt) 1)
    as (rafts & w' & E & Ht & Hl).
  - constructor; [|constructor]. intros s. eexists. reflexivity.
  - intros fsm nd s. reflexivity.
  - simpl. lia.
  - intros s. simpl. apply lookup_delete_eq.
  - intros s k Hk Hsome. assert (k = 0%nat) as -> by lia. simpl.
    rewrite lookup_delete_ne by lia. exact Hsome.
  - exists rafts, w'. split; [exact E|]. split; [exact Ht|exact Hl].
Defined.

Lemma cleanup_stops_at_shutdown_error_witness :
  ∃ rafts cleanup w1,
    Cluster (Lib:=failing_shutdown_library 1) three_fsms [only_node_0]
      (empty_world tt)
    = (Done (rafts, cleanup), w1)
    ∧ (cleanup w1).1
      = Fatal "failed to shutdown raft node 1: raft is already shutdown"
    ∧ w_trace (cleanup w1).2
      = w_trace w1 ++ (EvShutdown <$> rafts)
          ++ (EvFutureError <$> take 2 rafts)
    ∧ st_stores (w_state (cleanup w1).2) = st_stores (w_state w1)
    ∧ st_knobs (w_state (cleanup w1).2) = st_knobs (w_state w1).
Proof.
  destruct (Cluster_returns (Lib:=failing_shutdown_library 1) three_fsms
              [only_node_0] (empty_world tt))
    as (s1 & rafts & E & _ & _ & Hr).
  - constructor; [apply Servers_keeps_nodes|constructor].
  - intros fsm nd s. reflexivity.
  - cbv zeta in E, Hr.
    destruct (Hr 0%nat 0%nat eq_refl) as (nd0 & _ & H0).
    destruct (Hr 1%nat 1%nat eq_refl) as (nd1 & _ & H1).
    eexists rafts, _, _. split; [exact E|].
    match type of E with
    | _ = (Done (_, _), ?w1) =>
        destruct (cleanup_stops_at_shutdown_error
                    (Lib:=failing_shutdown_library 1)
                    _ _ _ _ _ _ 1%nat _ "raft is already shutdown" w1 E H1)
          as (E3 & Hst & _ & Hk & _)
    end.
    + reflexivity.
    + intros j r' Hj Hr'. assert (j = 0%nat) as -> by lia.
      rewrite H0 in Hr'. injection Hr' as <-. reflexivity.
    + split_and!; [by rewrite E3|by rewrite E3|exact Hst|exact Hk].
Defined.

Lemma Cluster_engines_without_knobs_witness :
  ∃ rafts cleanup w' r,
    Cluster (Lib:=quiet_library (KnobMem:=unit)) three_fsms [] (empty_world tt)
    = (Done (rafts, cleanup), w')
    ∧ rafts !! 1%nat = Some r
    ∧ node.Transport (raft_deps r) = InmemTransportRef 4%nat
    ∧ node.Peers (raft_deps r) = 7%nat.
Proof.
  destruct (Cluster_engines_without_knobs (Lib:=quiet_library (KnobMem:=unit))
              three_fsms (empty_world tt))
    as (rafts & cleanup & w' & E & _ & Hr).
  - intros fsm nd s. reflexivity.
  - destruct (Hr 1%nat 1%nat eq_refl)
      as (r & H1 & _ & _ & _ & Ht & _ & _ & _ & Hp & _).
    exists rafts, cleanup, w', r. split; [exact E|]. split; [exact H1|].
    split; [exact Ht|exact Hp].
Defined.

Lemma Cluster_keeps_earlier_objects_witness :
  let w0 := (Cluster (Lib:=quiet_library (KnobMem:=unit)) three_fsms []
               (empty_world tt)).2 in
  st_stores (w_state (Cluster (Lib:=quiet_library) three_fsms [] w0).2) !! 3%nat
  = Some (mkStaticPeers ["1"; "2"]).
Proof.
  intros w0.
  destruct (Cluster_keeps_earlier_objects (Lib:=quiet_library) three_fsms w0)
    as [Hold _].
  destruct (Hold 3%nat) as [_ ->].
  - unfold w0. vm_compute. lia.
  - unfold w0. vm_compute. reflexivity.
Defined.
